(** * Scaled dot-product (QKV) attention: the notebook's functions in Rocq

    Source: [C4_W1/C4_W1_Ungraded_Lab_2_QKV_Attention.ipynb], the functions
    [tokenize], [embed], [softmax], [calculate_weights] and [attention_qkv].

    The numpy code is written once, over an interface [Scalar] of the
    arithmetic it uses on array elements (addition, product, division, [exp],
    [sqrt], the conversion of a dimension to a number, the test [== 1]).
    Two instances are given:
    - [R_scalar]: exact real arithmetic, the mathematical reading of the code;
    - [float_scalar]: IEEE-754 binary64, numpy's [float64], with Rocq's
      primitive floats; the library function [exp] is a parameter of it.

    Python exceptions are the constructors of [exn]; a function that may
    raise returns a [result]. *)

From Stdlib Require Import Floats.
From Stdlib Require Import Reals Lra Lia ZArith List.
From stdpp Require Import base option list gmap strings.

(* ===================================================================== *)
(** ** Exceptions and the error monad *)
(* ===================================================================== *)

(** The exceptions the modelled code can raise.  [ValueError] is what
    [np.dot] raises on shapes that are not aligned and what a binary
    operation raises on shapes that do not broadcast (the specification
    calls it ShapeMismatch); [AxisError] is numpy's error for an axis out of
    range; [IndexError] comes from indexing; [AssertionError] from the
    [assert] of [calculate_weights]. *)
Inductive exn : Type :=
| ValueError
| IndexError
| AssertionError
| AxisError.

Inductive result (A : Type) : Type :=
| Ok (a : A)
| Raise (e : exn).

Arguments Ok {A} a.
Arguments Raise {A} e.

Definition bind {A B : Type} (m : result A) (k : A -> result B) : result B :=
  match m with
  | Ok a => k a
  | Raise e => Raise e
  end.

Notation "x <- m ;; k" := (bind m (fun x => k))
  (at level 100, m at next level, right associativity).

(** The specification's name for numpy's shape error. *)
Definition ShapeMismatch : exn := ValueError.

(* ===================================================================== *)
(** ** Array elements *)
(* ===================================================================== *)

(** The operations the notebook applies to array elements. *)
Class Scalar (T : Type) : Type := {
  szero : T;                 (* the entries of [np.zeros], the start of a sum *)
  sadd : T -> T -> T;
  smul : T -> T -> T;
  sdiv : T -> T -> T;
  sexp : T -> T;             (* [np.exp] on one element *)
  ssqrt : T -> T;            (* [np.sqrt] *)
  sof_nat : nat -> T;        (* a dimension ([keys.shape[1]]) as a number *)
  seq_one : T -> bool        (* [x == 1] *)
}.

(** A two-dimensional numpy array: its shape and its rows.  numpy arrays
    are rectangular, which [wf_ndarray] states; the shape is kept beside the
    rows because an array with no row still has a column count. *)
Record ndarray (T : Type) : Type := NDArray {
  shape0 : nat;
  shape1 : nat;
  data : list (list T)
}.

Arguments NDArray {T} shape0 shape1 data.
Arguments shape0 {T} n.
Arguments shape1 {T} n.
Arguments data {T} n.

Definition wf_ndarray {T : Type} (a : ndarray T) : Prop :=
  length (data a) = shape0 a /\ Forall (fun row => length row = shape1 a) (data a).

#[global] Instance wf_ndarray_dec {T : Type} (a : ndarray T) : Decision (wf_ndarray a).
Proof. unfold wf_ndarray. apply _. Defined.

(* ===================================================================== *)
(** ** The numpy operations the notebook calls *)
(* ===================================================================== *)

Section Numpy.
Context {T : Type} `{Scalar T}.

(** [np.zeros((r, c))] *)
Definition np_zeros (r c : nat) : ndarray T :=
  NDArray r c (replicate r (replicate c szero)).

(** [np.exp(x)], element by element. *)
Definition np_exp (x : ndarray T) : ndarray T :=
  NDArray (shape0 x) (shape1 x) (map (map sexp) (data x)).

(** Element [x[i, j]]. *)
Definition get (x : ndarray T) (i j : nat) : T :=
  nth j (nth i (data x) []) szero.

(** Column [j] of [x], top to bottom. *)
Definition column (x : ndarray T) (j : nat) : list T :=
  map (fun row => nth j row szero) (data x).

(** [x.T] *)
Definition transpose (x : ndarray T) : ndarray T :=
  NDArray (shape1 x) (shape0 x) (map (column x) (seq 0 (shape1 x))).

(** The sum of a one-dimensional array, accumulated from the left starting
    at zero.  (numpy adds fewer than eight numbers this way and longer rows
    pairwise in blocks; the order is immaterial over the reals and for arrays
    of one element.) *)
Definition vsum (l : list T) : T := fold_left sadd l szero.

(** The inner product of two vectors, accumulated from the left.  (numpy
    hands the product to BLAS, which may add in another order and fuse the
    product with the addition; over the reals, and where all products are
    zeros, that is immaterial.) *)
Definition vdot (u v : list T) : T :=
  fold_left (fun acc p => sadd acc (smul (fst p) (snd p))) (combine u v) szero.

(** numpy's [normalize_axis_index] for a two-dimensional array: axes
    [-2 .. 1] are valid, a negative one counts from the end. *)
Definition normalize_axis (axis : Z) : result nat :=
  if (Z.leb (-2) axis && Z.ltb axis 2)%bool
  then Ok (Z.to_nat (axis mod 2))
  else Raise AxisError.

(** [np.sum(x, axis=axis)]: a one-dimensional array. *)
Definition np_sum (x : ndarray T) (axis : Z) : result (list T) :=
  ax <- normalize_axis axis ;;
  match ax with
  | O => Ok (map (fun j => vsum (column x j)) (seq 0 (shape1 x)))
  | _ => Ok (map vsum (data x))
  end.

(** [np.expand_dims(v, axis)] for a one-dimensional [v]: shape [(1, n)] for
    axis 0 and [(n, 1)] for axis 1. *)
Definition expand_dims (v : list T) (axis : Z) : result (ndarray T) :=
  ax <- normalize_axis axis ;;
  match ax with
  | O => Ok (NDArray 1 (length v) [v])
  | _ => Ok (NDArray (length v) 1 (map (fun s => [s]) v))
  end.

(** Broadcasting of one dimension: equal sizes, or one of them is 1. *)
Definition broadcast_dim (m n : nat) : option nat :=
  if Nat.eqb m n then Some m
  else if Nat.eqb m 1 then Some n
  else if Nat.eqb n 1 then Some m
  else None.

(** The index used in a dimension of size [n] when the result's index is
    [i]: a dimension of size 1 is repeated. *)
Definition broadcast_index (n i : nat) : nat :=
  if Nat.eqb n 1 then 0 else i.

(** An element-wise binary operation [a op b] on two-dimensional arrays,
    with numpy's broadcasting. *)
Definition broadcast2 (op : T -> T -> T) (a b : ndarray T) : result (ndarray T) :=
  match broadcast_dim (shape0 a) (shape0 b), broadcast_dim (shape1 a) (shape1 b) with
  | Some r, Some c =>
      Ok (NDArray r c
            (map (fun i =>
                    map (fun j =>
                           op (get a (broadcast_index (shape0 a) i) (broadcast_index (shape1 a) j))
                              (get b (broadcast_index (shape0 b) i) (broadcast_index (shape1 b) j)))
                        (seq 0 c))
                 (seq 0 r)))
  | _, _ => Raise ValueError
  end.

(** [a / b] on arrays. *)
Definition broadcast_div : ndarray T -> ndarray T -> result (ndarray T) :=
  broadcast2 sdiv.

(** [x / s] for an array [x] and a number [s]. *)
Definition div_scalar (x : ndarray T) (s : T) : ndarray T :=
  NDArray (shape0 x) (shape1 x) (map (map (fun v => sdiv v s)) (data x)).

(** The matrix product: entry [(i, j)] is the inner product of row [i] of
    [a] and column [j] of [b]. *)
Definition matmul (a b : ndarray T) : ndarray T :=
  NDArray (shape0 a) (shape1 b)
    (map (fun row => map (fun j => vdot row (column b j)) (seq 0 (shape1 b))) (data a)).

(** [np.dot(a, b)] (and [np.matmul]) on two-dimensional arrays: the inner
    dimensions must agree. *)
Definition np_dot (a b : ndarray T) : result (ndarray T) :=
  if Nat.eqb (shape1 a) (shape0 b) then Ok (matmul a b) else Raise ValueError.

(** [v[0]] on a one-dimensional array. *)
Definition index0 (v : list T) : result T :=
  match v with
  | [] => Raise IndexError
  | x :: _ => Ok x
  end.

(** [embeddings[token]] for a Python integer [token]: a row, counted from
    the end when [token] is negative; [IndexError] out of range. *)
Definition getitem (embeddings : ndarray T) (token : Z) : result (list T) :=
  let n := Z.of_nat (shape0 embeddings) in
  if (Z.leb (- n) token && Z.ltb token n)%bool then
    match data embeddings !! Z.to_nat (if Z.ltb token 0 then token + n else token)%Z with
    | Some row => Ok row
    | None => Raise IndexError
    end
  else Raise IndexError.

(** [output[i] = row] *)
Definition setitem (output : ndarray T) (i : nat) (row : list T) : ndarray T :=
  NDArray (shape0 output) (shape1 output) (<[i := row]> (data output)).

(* ===================================================================== *)
(** ** The notebook's functions *)
(* ===================================================================== *)

(** [[
def softmax(x, axis=0):
    return np.exp(x) / np.expand_dims(np.sum(np.exp(x), axis=axis), axis)
]] *)
Definition softmax (x : ndarray T) (axis : Z) : result (ndarray T) :=
  let e := np_exp x in
  s <- np_sum (np_exp x) axis ;;
  d <- expand_dims s axis ;;
  broadcast_div e d.

(** [[
def calculate_weights(queries, keys):
    dot = np.dot(queries, keys.T) / np.sqrt(keys.shape[1])
    weights = softmax(dot, axis=1)
    assert weights.sum(axis=1)[0] == 1, "Each row in weights must sum to 1"
    return weights
]] *)
Definition calculate_weights (queries keys : ndarray T) : result (ndarray T) :=
  d <- np_dot queries (transpose keys) ;;
  let dot := div_scalar d (ssqrt (sof_nat (shape1 keys))) in
  weights <- softmax dot 1 ;;
  sums <- np_sum weights 1 ;;
  s0 <- index0 sums ;;
  if seq_one s0 then Ok weights else Raise AssertionError.

(** [[
def attention_qkv(queries, keys, values):
    weights = calculate_weights(queries, keys)
    return np.dot(weights, values)
]] *)
Definition attention_qkv (queries keys values : ndarray T) : result (ndarray T) :=
  weights <- calculate_weights queries keys ;;
  np_dot weights values.

(** The body of the loop of [embed] for one token: the row stored at its
    position. *)
Definition embed_row (embeddings : ndarray T) (token : Z) : result (list T) :=
  if Z.eqb token (-1)
  then Ok (replicate (shape1 embeddings) szero)
  else getitem embeddings token.

(** The loop [for i, token in enumerate(tokens)] of [embed], from position
    [i] on, threading the array [output] it assigns into. *)
Fixpoint embed_loop (embeddings : ndarray T) (i : nat) (tokens : list Z)
    (output : ndarray T) : result (ndarray T) :=
  match tokens with
  | [] => Ok output
  | token :: rest =>
      row <- embed_row embeddings token ;;
      embed_loop embeddings (S i) rest (setitem output i row)
  end.

(** [[
def embed(tokens, embeddings):
    embed_size = embeddings.shape[1]
    output = np.zeros((len(tokens), embed_size))
    for i, token in enumerate(tokens):
        if token == -1:
            output[i] = np.zeros((1, embed_size))
        else:
            output[i] = embeddings[token]
    return output
]] *)
Definition embed (tokens : list Z) (embeddings : ndarray T) : result (ndarray T) :=
  let embed_size := shape1 embeddings in
  embed_loop embeddings 0 tokens (np_zeros (length tokens) embed_size).

End Numpy.

(* ===================================================================== *)
(** ** Forms in which the results are stated *)
(* ===================================================================== *)

Section Derived.
Context {T : Type} `{Scalar T}.

(** The array of shape [(r, c)] with entry [f i j] at [(i, j)]. *)
Definition tabulate (r c : nat) (f : nat -> nat -> T) : ndarray T :=
  NDArray r c (map (fun i => map (fun j => f i j) (seq 0 c)) (seq 0 r)).

(** The reduced slice through [(i, j)]: column [j] for axis 0, row [i] for
    axis 1. *)
Definition slice (x : ndarray T) (ax : nat) (i j : nat) : list T :=
  match ax with
  | O => column x j
  | _ => nth i (data x) []
  end.

(** One row of [softmax(x, axis=1)]. *)
Definition softmax_row (row : list T) : list T :=
  map (fun v => sdiv (sexp v) (vsum (map sexp row))) row.

(** The scaled scores: entry [(i, j)] is the inner product of query [i] and
    key [j], divided by the square root of the keys' column count. *)
Definition scores (queries keys : ndarray T) : ndarray T :=
  NDArray (shape0 queries) (shape0 keys)
    (map (fun q => map (fun k => sdiv (vdot q k) (ssqrt (sof_nat (shape1 keys)))) (data keys))
         (data queries)).



End Derived.

(* ===================================================================== *)
(** ** Tokenizer *)
(* ===================================================================== *)

(** [str.lower()] on one character.  Strings are sequences of bytes here, so
    only the ASCII letters [A-Z] change; Python also lowers letters outside
    ASCII. *)
Definition lower_ascii (c : Ascii.ascii) : Ascii.ascii :=
  let n := Ascii.nat_of_ascii c in
  if (Nat.leb 65 n && Nat.leb n 90)%bool then Ascii.ascii_of_nat (n + 32) else c.

Fixpoint lower (s : string) : string :=
  match s with
  | EmptyString => EmptyString
  | String c s' => String (lower_ascii c) (lower s')
  end.

(** [s.split(" ")]: the pieces between single spaces (an empty string gives
    one empty piece, two spaces in a row give an empty piece). *)
Fixpoint split_space (s : string) : list string :=
  match s with
  | EmptyString => [EmptyString]
  | String c s' =>
      match split_space s' with
      | w :: ws => if Ascii.eqb c Ascii.Space then EmptyString :: w :: ws else String c w :: ws
      | [] => []
      end
  end.

(** A sentence of ASCII characters only; on these [lower] is [str.lower]. *)
Fixpoint is_ascii (s : string) : bool :=
  match s with
  | EmptyString => true
  | String c s' => (Nat.ltb (Ascii.nat_of_ascii c) 128 && is_ascii s')%bool
  end.

(** [[
def tokenize(sentence, token_mapping):
    tokenized = []
    for word in sentence.lower().split(" "):
        try:
            tokenized.append(token_mapping[word])
        except KeyError:
            # Using -1 to indicate an unknown word
            tokenized.append(-1)
    return tokenized
]] *)
Definition tokenize (sentence : string) (token_mapping : gmap string Z) : list Z :=
  fold_left
    (fun tokenized word =>
       match token_mapping !! word with
       | Some token => tokenized ++ [token]
       | None => tokenized ++ [(-1)%Z]
       end)
    (split_space (lower sentence)) [].

(* ===================================================================== *)
(** ** Exact arithmetic *)
(* ===================================================================== *)

(** The reals: what the code computes when no operation rounds or
    overflows.  [x == 1] is equality of real numbers. *)
#[global] Instance R_scalar : Scalar R := {|
  szero := 0%R;
  sadd := Rplus;
  smul := Rmult;
  sdiv := Rdiv;
  sexp := exp;
  ssqrt := sqrt;
  sof_nat := INR;
  seq_one := fun x => if Req_dec_T x 1%R then true else false
|}.

(* ===================================================================== *)
(** ** Binary64 arithmetic *)
(* ===================================================================== *)

(** numpy's [float64], with the operations of IEEE-754 as Rocq's primitive
    floats have them.  [exp] belongs to the C library and is the parameter
    [fexp].  [x == 1] is the IEEE comparison (false on NaN). *)
Definition float_scalar (fexp : float -> float) : Scalar float := {|
  szero := 0%float;
  sadd := PrimFloat.add;
  smul := PrimFloat.mul;
  sdiv := PrimFloat.div;
  sexp := fexp;
  ssqrt := PrimFloat.sqrt;
  sof_nat := fun n => SF2Prim (binary_normalize prec emax (Z.of_nat n) 0 false);
  seq_one := fun x => PrimFloat.eqb x 1%float
|}.

(** The Taylor polynomial of [exp] of degree 17, in Horner form. *)
Definition taylor_exp (r : float) : float :=
  fold_right (fun n acc => (1 + r * acc / n)%float) 1%float
    [1; 2; 3; 4; 5; 6; 7; 8; 9; 10; 11; 12; 13; 14; 15; 16; 17]%float.

(** A stand-in for the C library's [exp] on binary64, used to run the code
    on concrete floats.  It has the special cases every implementation has:
    NaN for NaN, [+inf] above [ln(DBL_MAX) = 0x1.62e42fefa39efp+9] (about
    709.78), 0 below [-0x1.74910d52d3051p+9] (about -745.13), and exactly 1
    at zero.  In between it computes [exp(x / 2^10) ^ (2^10)] from the Taylor
    polynomial, which may differ from the C library in the last digits; the
    lemmas on concrete inputs below rest on the special cases only. *)
Definition libm_exp (x : float) : float :=
  if PrimFloat.is_nan x then nan
  else if PrimFloat.ltb 0x1.62e42fefa39efp+9 x then infinity
  else if PrimFloat.ltb x (-0x1.74910d52d3051p+9) then 0%float
  else Nat.iter 10 (fun y => (y * y)%float) (taylor_exp (x / 1024)).

#[global] Instance float64 : Scalar float := float_scalar libm_exp.

(** A float that is neither a zero, nor an infinity, nor NaN. *)
Definition finite_nonzero (x : float) : bool :=
  match Prim2SF x with
  | S754_finite _ _ _ => true
  | _ => false
  end.


(** The score of a single row against itself, as [calculate_weights]
    computes it: the inner product divided by the square root of the number
    of columns. *)
Definition self_score (row : list float) : float :=
  (@vdot float float64 row row / PrimFloat.sqrt (@sof_nat float float64 (length row)))%float.

(** Arrays of the examples: a query of zeros (what [embed] gives a word
    outside the vocabulary), six keys, and six values, one per key. *)
Definition zero_query : ndarray float := NDArray 1 2 [[0; 0]%float].
Definition six_keys : ndarray float :=
  NDArray 6 2 [[1; 2]; [3; 4]; [5; 6]; [-1; 0.5]; [0; 0]; [2; -3]]%float.

(* ===================================================================== *)
(** ** The specification's formulas, over the reals *)
(* ===================================================================== *)

Section SpecFormulas.
Local Open Scope R_scope.

(** The sum of the numbers of a list. *)
Definition Rsum (l : list R) : R := fold_right Rplus 0 l.

(** The inner product of two vectors. *)
Definition dot_product (u v : list R) : R :=
  Rsum (map (fun p => fst p * snd p) (combine u v)).

(** Softmax of a vector, as the specification words it: exponentiate each
    element, divide by the sum of the exponentials. *)
Definition softmax_spec (l : list R) : list R :=
  map (fun s => exp s / Rsum (map exp l)) l.

(** The weight matrix as the specification words it: the inner product of
    each query with each key, divided by the square root of the embedding
    dimension, then softmax along the key axis, each row on its own. *)
Definition spec_weights (queries keys : ndarray R) : ndarray R :=
  NDArray (shape0 queries) (shape0 keys)
    (map (fun q =>
            softmax_spec (map (fun k => dot_product q k / sqrt (INR (shape1 keys)))
                              (data keys)))
         (data queries)).

(** The largest number of a list (0 for the empty list, which has none). *)
Definition vmax (l : list R) : R :=
  match l with
  | [] => 0
  | a :: l' => fold_left Rmax l' a
  end.

(** The maxima along [axis], a one-dimensional array like [np_sum]'s. *)
Definition np_amax (x : ndarray R) (axis : Z) : result (list R) :=
  ax <- normalize_axis axis ;;
  match ax with
  | O => Ok (map (fun j => vmax (column x j)) (seq 0 (shape1 x)))
  | _ => Ok (map vmax (data x))
  end.

(** The stabilized variant the specification recommends: subtract the
    maximum along the axis from every element, then exponentiate and divide
    by the sum of the exponentials along the axis. *)
Definition softmax_stable (x : ndarray R) (axis : Z) : result (ndarray R) :=
  m <- np_amax x axis ;;
  z <- (mk <- expand_dims m axis ;; broadcast2 Rminus x mk) ;;
  let e := np_exp z in
  s <- np_sum e axis ;;
  d <- expand_dims s axis ;;
  broadcast_div e d.

End SpecFormulas.

(* ===================================================================== *)
(** ** The cells that run the functions *)
(* ===================================================================== *)

Section Cells.
Context {T : Type} `{Scalar T}.

(** The notebook's cell that aligns the two sentences; the sentences, the
    vocabularies and the embedding matrices (loaded from files in the
    notebook) are its parameters.
[[
tokenized_en = tokenize(sentence_en, en_words)
embedded_en = embed(tokenized_en, en_embeddings)
tokenized_fr = tokenize(sentence_fr, fr_words)
embedded_fr = embed(tokenized_fr, fr_embeddings)
alignment = calculate_weights(embedded_fr, embedded_en)
]] *)
Definition alignment (sentence_en : string) (en_words : gmap string Z)
    (en_embeddings : ndarray T) (sentence_fr : string) (fr_words : gmap string Z)
    (fr_embeddings : ndarray T) : result (ndarray T) :=
  let tokenized_en := tokenize sentence_en en_words in
  embedded_en <- embed tokenized_en en_embeddings ;;
  let tokenized_fr := tokenize sentence_fr fr_words in
  embedded_fr <- embed tokenized_fr fr_embeddings ;;
  calculate_weights embedded_fr embedded_en.

(** What the same cell hands to the plot of the alignment: the positions of
    the ticks of an axis and their labels.
[[
ax.set_xticks(np.arange(alignment.shape[1]))
ax.set_xticklabels(sentence_en.split(" "), rotation=90, size=16);
ax.set_yticks(np.arange(alignment.shape[0]));
ax.set_yticklabels(sentence_fr.split(" "), size=16);
]] *)
Definition xticks (a : ndarray T) : list nat := seq 0 (shape1 a).
Definition xticklabels (sentence_en : string) : list string := split_space sentence_en.
Definition yticks (a : ndarray T) : list nat := seq 0 (shape0 a).
Definition yticklabels (sentence_fr : string) : list string := split_space sentence_fr.

(** The cell that applies the attention, on the embedded sentences of the
    cell above.
[[
attention_qkv_result = attention_qkv(embedded_fr, embedded_en, embedded_en)
]] *)
Definition attention_qkv_result (sentence_en : string) (en_words : gmap string Z)
    (en_embeddings : ndarray T) (sentence_fr : string) (fr_words : gmap string Z)
    (fr_embeddings : ndarray T) : result (ndarray T) :=
  embedded_en <- embed (tokenize sentence_en en_words) en_embeddings ;;
  embedded_fr <- embed (tokenize sentence_fr fr_words) fr_embeddings ;;
  attention_qkv embedded_fr embedded_en embedded_en.

(** The results of a function applied to the elements of a list, in order;
    the first exception ends it. *)
Fixpoint traverse {A B : Type} (f : A -> result B) (l : list A) : result (list B) :=
  match l with
  | [] => Ok []
  | a :: l' => b <- f a ;; bs <- traverse f l' ;; Ok (b :: bs)
  end.

End Cells.

(* ===================================================================== *)
(** ** Facts about the error monad and lists *)
(* ===================================================================== *)

Lemma bind_Ok {A B : Type} (m : result A) (k : A -> result B) (b : B) :
  bind m k = Ok b -> exists a, m = Ok a /\ k a = Ok b.
Proof. destruct m as [a|e]; simpl; intros E; [eauto | discriminate]. Qed.

Lemma Ok_inj {A : Type} (a b : A) : Ok a = Ok b -> a = b.
Proof. intros E. now injection E. Qed.

Lemma nth_map_lt {A B : Type} (f : A -> B) (l : list A) (i : nat) (d : B) (d' : A) :
  i < length l -> nth i (map f l) d = f (nth i l d').
Proof.
  intros Hi. rewrite (nth_indep (map f l) d (f d')) by (rewrite length_map; exact Hi).
  apply map_nth.
Qed.

(** A list is the table of its elements. *)
Lemma map_nth_seq {A B : Type} (g : A -> B) (l : list A) (d : A) (n : nat) :
  length l = n -> map (fun j => g (nth j l d)) (seq 0 n) = map g l.
Proof.
  intros <-. induction l as [|a l IH]; [reflexivity|].
  cbn [length seq map nth]. f_equal. rewrite <- seq_shift, map_map. exact IH.
Qed.

Lemma Forall_nth_length {A : Type} (ll : list (list A)) (n i : nat) :
  Forall (fun row => length row = n) ll -> i < length ll -> length (nth i ll []) = n.
Proof.
  intros Hall Hi. rewrite Forall_forall in Hall. apply Hall.
  apply list_elem_of_In, nth_In, Hi.
Qed.

(* ===================================================================== *)
(** ** The numpy operations on well-formed arrays *)
(* ===================================================================== *)

Section NumpyFacts.
Context {T : Type} `{Scalar T}.

Lemma tabulate_ext (r c : nat) (f g : nat -> nat -> T) :
  (forall i j, i < r -> j < c -> f i j = g i j) -> tabulate r c f = tabulate r c g.
Proof.
  intros E. unfold tabulate. f_equal.
  apply map_ext_in. intros i Hi. apply in_seq in Hi.
  apply map_ext_in. intros j Hj. apply in_seq in Hj.
  apply E; lia.
Qed.

Lemma tabulate_wf (r c : nat) (f : nat -> nat -> T) : wf_ndarray (tabulate r c f).
Proof.
  split; simpl.
  - now rewrite length_map, length_seq.
  - apply Forall_forall. intros row Hrow. apply list_elem_of_In, in_map_iff in Hrow.
    destruct Hrow as (i & <- & _). now rewrite length_map, length_seq.
Qed.

(** A table of the entries of the rows is the rows mapped. *)
Lemma tabulate_rows (x : ndarray T) (F : list T -> T -> T) :
  wf_ndarray x ->
  tabulate (shape0 x) (shape1 x) (fun i j => F (nth i (data x) []) (get x i j))
  = NDArray (shape0 x) (shape1 x) (map (fun row => map (F row) row) (data x)).
Proof.
  intros [Hlen Hrows]. unfold tabulate, get. f_equal.
  rewrite <- (map_nth_seq (fun row => map (F row) row) (data x) [] (shape0 x) Hlen).
  apply map_ext_in. intros i Hi. apply in_seq in Hi.
  apply map_nth_seq. apply Forall_nth_length; [exact Hrows | lia].
Qed.

Lemma tabulate_get (x : ndarray T) :
  wf_ndarray x -> tabulate (shape0 x) (shape1 x) (get x) = x.
Proof.
  intros Hwf. etransitivity; [exact (tabulate_rows x (fun _ v => v) Hwf)|].
  destruct x as [r c rows]. simpl. f_equal.
  rewrite <- (map_id rows) at 2. apply map_ext. intros row. apply map_id.
Qed.

Lemma get_tabulate (r c : nat) (f : nat -> nat -> T) (i j : nat) :
  i < r -> j < c -> get (tabulate r c f) i j = f i j.
Proof.
  intros Hi Hj. unfold get, tabulate. simpl.
  rewrite (nth_map_lt _ _ _ _ 0) by (now rewrite length_seq).
  rewrite (nth_map_lt _ _ _ _ 0) by (now rewrite length_seq).
  now rewrite !seq_nth.
Qed.

Lemma row_tabulate (r c : nat) (f : nat -> nat -> T) (i : nat) :
  i < r -> nth i (data (tabulate r c f)) [] = map (f i) (seq 0 c).
Proof.
  intros Hi. unfold tabulate. simpl.
  rewrite (nth_map_lt _ _ _ _ 0) by (now rewrite length_seq).
  now rewrite seq_nth.
Qed.

Lemma column_tabulate (r c : nat) (f : nat -> nat -> T) (j : nat) :
  j < c -> column (tabulate r c f) j = map (fun i => f i j) (seq 0 r).
Proof.
  intros Hj. unfold column, tabulate. simpl. rewrite map_map.
  apply map_ext. intros i.
  rewrite (nth_map_lt _ _ _ _ 0) by (now rewrite length_seq).
  now rewrite seq_nth.
Qed.

Lemma column_length (x : ndarray T) (j : nat) : length (column x j) = length (data x).
Proof. unfold column. apply length_map. Qed.

Lemma broadcast_dim_same (n : nat) : broadcast_dim n n = Some n.
Proof. unfold broadcast_dim. now rewrite Nat.eqb_refl. Qed.

Lemma broadcast_dim_one (n : nat) : broadcast_dim n 1 = Some n.
Proof. unfold broadcast_dim. destruct (Nat.eqb n 1); reflexivity. Qed.

Lemma broadcast_index_lt (n i : nat) : i < n -> broadcast_index n i = i.
Proof.
  unfold broadcast_index. intros Hi.
  destruct (Nat.eqb_spec n 1) as [->|]; [lia | reflexivity].
Qed.

Lemma normalize_axis_cases (axis : Z) :
  (normalize_axis axis = Ok 0 /\ (axis = 0 \/ axis = -2)%Z)
  \/ (normalize_axis axis = Ok 1 /\ (axis = 1 \/ axis = -1)%Z)
  \/ (normalize_axis axis = Raise AxisError /\ (axis < -2 \/ 2 <= axis)%Z).
Proof.
  unfold normalize_axis.
  destruct (Z.leb_spec (-2) axis); destruct (Z.ltb_spec axis 2); simpl; try (right; right; split; [reflexivity | lia]).
  assert (axis = -2 \/ axis = -1 \/ axis = 0 \/ axis = 1)%Z as [-> | [-> | [-> | ->]]] by lia;
    simpl; intuition.
Qed.

Lemma get_np_exp (x : ndarray T) (i j : nat) :
  wf_ndarray x -> i < shape0 x -> j < shape1 x ->
  get (np_exp x) i j = sexp (get x i j).
Proof.
  intros [Hlen Hrows] Hi Hj. unfold get, np_exp. simpl.
  rewrite (nth_map_lt _ _ _ _ []) by lia.
  apply nth_map_lt. rewrite (Forall_nth_length _ (shape1 x)); [exact Hj | exact Hrows | lia].
Qed.

Lemma column_np_exp (x : ndarray T) (j : nat) :
  wf_ndarray x -> j < shape1 x -> column (np_exp x) j = map sexp (column x j).
Proof.
  intros [Hlen Hrows] Hj. unfold column, np_exp. simpl. rewrite !map_map.
  apply map_ext_in. intros row Hrow. apply nth_map_lt.
  rewrite Forall_forall in Hrows. rewrite (Hrows row); [exact Hj | now apply list_elem_of_In].
Qed.

(** Broadcasting an array against the reductions along [axis], kept as a
    dimension of size 1: entry [(i, j)] meets the reduction of its slice. *)
Lemma broadcast2_expand_dims (op : T -> T -> T) (x : ndarray T) (red : list T -> T)
    (axis : Z) (ax : nat) (v : list T) :
  wf_ndarray x -> normalize_axis axis = Ok ax ->
  v = match ax with
      | O => map (fun j => red (column x j)) (seq 0 (shape1 x))
      | _ => map red (data x)
      end ->
  (d <- expand_dims v axis ;; broadcast2 op x d)
  = Ok (tabulate (shape0 x) (shape1 x) (fun i j => op (get x i j) (red (slice x ax i j)))).
Proof.
  intros [Hlen Hrows] Hax ->. unfold expand_dims. rewrite Hax. simpl.
  destruct ax as [|ax]; simpl; unfold broadcast2; simpl.
  - rewrite length_map, length_seq, broadcast_dim_one, broadcast_dim_same.
    f_equal. apply tabulate_ext. intros i j Hi Hj.
    rewrite !broadcast_index_lt by assumption. f_equal.
    unfold get, broadcast_index. simpl.
    rewrite (nth_map_lt _ _ _ _ 0) by (now rewrite length_seq).
    now rewrite seq_nth.
  - rewrite length_map, Hlen, broadcast_dim_one, broadcast_dim_same.
    f_equal. apply tabulate_ext. intros i j Hi Hj.
    rewrite !broadcast_index_lt by assumption. f_equal.
    unfold get, broadcast_index. simpl. rewrite map_map.
    now rewrite (nth_map_lt _ _ _ _ []) by lia.
Qed.

(** [softmax], entry by entry. *)
Lemma softmax_tabulate (x : ndarray T) (axis : Z) (ax : nat) :
  wf_ndarray x -> normalize_axis axis = Ok ax ->
  softmax x axis
  = Ok (tabulate (shape0 x) (shape1 x)
          (fun i j => sdiv (sexp (get x i j)) (vsum (map sexp (slice x ax i j))))).
Proof.
  intros Hwf Hax. unfold softmax, np_sum. rewrite Hax. simpl.
  assert (Hwfe : wf_ndarray (np_exp x)).
  { destruct Hwf as [Hlen Hrows]. split; simpl; [now rewrite length_map|].
    apply Forall_map. eapply Forall_impl; [exact Hrows|]. intros row. simpl.
    now rewrite length_map. }
  transitivity (d <- expand_dims
                       (match ax with
                        | O => map (fun j => vsum (column (np_exp x) j)) (seq 0 (shape1 (np_exp x)))
                        | _ => map vsum (data (np_exp x))
                        end) axis ;; broadcast2 sdiv (np_exp x) d).
  { destruct ax; reflexivity. }
  rewrite (broadcast2_expand_dims sdiv (np_exp x) vsum axis ax _ Hwfe Hax eq_refl).
  f_equal. apply tabulate_ext. intros i j Hi Hj. simpl in Hi, Hj.
  rewrite get_np_exp by assumption. f_equal. f_equal.
  destruct ax as [|ax]; simpl.
  - now apply column_np_exp.
  - unfold np_exp. simpl. destruct Hwf as [Hlen _].
    now rewrite (nth_map_lt _ _ _ _ []) by lia.
Qed.

Lemma softmax_rows (x : ndarray T) :
  wf_ndarray x ->
  softmax x 1 = Ok (NDArray (shape0 x) (shape1 x) (map softmax_row (data x))).
Proof.
  intros Hwf. rewrite (softmax_tabulate x 1 1 Hwf eq_refl). f_equal.
  exact (tabulate_rows x (fun row v => sdiv (sexp v) (vsum (map sexp row))) Hwf).
Qed.

End NumpyFacts.

(* ===================================================================== *)
(** ** [calculate_weights] and [attention_qkv], for any arithmetic *)
(* ===================================================================== *)

Section AttentionFacts.
Context {T : Type} `{Scalar T}.

Lemma column_transpose (x : ndarray T) (j : nat) :
  wf_ndarray x -> j < shape0 x -> column (transpose x) j = nth j (data x) [].
Proof.
  intros [Hlen Hrows] Hj. unfold column, transpose. simpl. rewrite map_map.
  transitivity (map (fun i => nth i (nth j (data x) []) szero) (seq 0 (shape1 x))).
  - apply map_ext. intros i. unfold column.
    now rewrite (nth_map_lt _ _ _ _ []) by lia.
  - rewrite (map_nth_seq (fun v => v))
      by (apply Forall_nth_length; [exact Hrows | lia]).
    apply map_id.
Qed.

Lemma scores_wf (queries keys : ndarray T) :
  wf_ndarray queries -> wf_ndarray keys -> wf_ndarray (scores queries keys).
Proof.
  intros [Hlen _] [Hlenk _]. split; simpl; [now rewrite length_map|].
  apply Forall_map, Forall_forall. intros q _. simpl. now rewrite length_map.
Qed.

Lemma np_dot_scaled (queries keys : ndarray T) :
  wf_ndarray keys -> shape1 queries = shape1 keys ->
  (d <- np_dot queries (transpose keys) ;; Ok (div_scalar d (ssqrt (sof_nat (shape1 keys)))))
  = Ok (scores queries keys).
Proof.
  intros Hk Hd. unfold np_dot. simpl. rewrite Hd, Nat.eqb_refl. simpl.
  unfold div_scalar, scores. simpl. f_equal. f_equal. rewrite map_map.
  apply map_ext. intros q. rewrite map_map.
  destruct Hk as [Hlen Hrows].
  rewrite <- (map_nth_seq (fun k => sdiv (vdot q k) (ssqrt (sof_nat (shape1 keys))))
                (data keys) [] (shape0 keys) Hlen).
  apply map_ext_in. intros j Hj. apply in_seq in Hj.
  now rewrite column_transpose by (try split; auto; lia).
Qed.

(** What [calculate_weights] does on arrays whose column counts agree: an
    [IndexError] when there is no query, otherwise the row-wise softmax of
    the scaled scores when the sum of its first row tests equal to 1, and an
    [AssertionError] when it does not. *)
Lemma calculate_weights_eq (queries keys : ndarray T) :
  wf_ndarray queries -> wf_ndarray keys -> shape1 queries = shape1 keys ->
  calculate_weights queries keys
  = let weights := NDArray (shape0 queries) (shape0 keys)
                     (map softmax_row (data (scores queries keys))) in
    match data weights with
    | [] => Raise IndexError
    | row0 :: _ => if seq_one (vsum row0) then Ok weights else Raise AssertionError
    end.
Proof.
  intros Hq Hk Hd. unfold calculate_weights.
  pose proof (np_dot_scaled queries keys Hk Hd) as E.
  destruct (np_dot queries (transpose keys)) as [d|e]; [|discriminate E].
  cbn [bind] in E. apply Ok_inj in E. cbn [bind]. rewrite E.
  rewrite (softmax_rows _ (scores_wf queries keys Hq Hk)). cbn [bind].
  unfold np_sum. cbn [normalize_axis bind data shape0 shape1 scores]. simpl.
  destruct (map softmax_row _) as [|row0 rows]; reflexivity.
Qed.

Lemma softmax_shape1 (x w : ndarray T) (axis : Z) :
  softmax x axis = Ok w -> shape1 w = shape1 x.
Proof.
  unfold softmax, np_sum, expand_dims. intros E.
  destruct (normalize_axis axis) as [[|ax]|e]; simpl in E; try discriminate;
    unfold broadcast_div, broadcast2 in E; simpl in E.
  - rewrite length_map, length_seq, broadcast_dim_same in E.
    destruct (broadcast_dim (shape0 x) 1); [|discriminate]. now injection E as <-.
  - rewrite broadcast_dim_one in E.
    destruct (broadcast_dim (shape0 x) _); [|discriminate]. now injection E as <-.
Qed.

Lemma calculate_weights_inv (queries keys w : ndarray T) :
  calculate_weights queries keys = Ok w ->
  shape1 queries = shape1 keys /\
  softmax (div_scalar (matmul queries (transpose keys)) (ssqrt (sof_nat (shape1 keys)))) 1
  = Ok w.
Proof.
  unfold calculate_weights, np_dot. cbn [transpose shape0]. intros E.
  destruct (Nat.eqb_spec (shape1 queries) (shape1 keys)) as [Hd|]; [|discriminate].
  split; [exact Hd|]. cbn [bind] in E.
  apply bind_Ok in E. destruct E as (w' & Hw & E). rewrite Hw. f_equal.
  apply bind_Ok in E. destruct E as (sums & _ & E).
  apply bind_Ok in E. destruct E as (s0 & _ & E).
  destruct (seq_one s0); [now injection E | discriminate].
Qed.

(** The weights have one column per key. *)
Lemma calculate_weights_shape1 (queries keys w : ndarray T) :
  calculate_weights queries keys = Ok w -> shape1 w = shape0 keys.
Proof.
  intros E. apply calculate_weights_inv in E. destruct E as [_ E].
  now apply softmax_shape1 in E.
Qed.

(** The weights of well-formed arrays: one row per query, well-formed. *)
Lemma calculate_weights_wf (queries keys w : ndarray T) :
  wf_ndarray queries -> calculate_weights queries keys = Ok w ->
  shape0 w = shape0 queries /\ wf_ndarray w.
Proof.
  intros Hq E. apply calculate_weights_inv in E. destruct E as [_ E].
  set (x := div_scalar _ _) in E.
  assert (Hx : wf_ndarray x).
  { destruct Hq as [Hlen _]. split; simpl; [now rewrite !length_map|].
    apply Forall_map, Forall_map, Forall_forall. intros q _. simpl.
    now rewrite !length_map, length_seq. }
  rewrite (softmax_tabulate x 1 1 Hx eq_refl) in E. injection E as <-.
  split; [reflexivity | apply tabulate_wf].
Qed.


End AttentionFacts.

(* ===================================================================== *)
(** ** [embed], for any arithmetic *)
(* ===================================================================== *)

Section EmbedFacts.
Context {T : Type} `{Scalar T}.

(** Indexing raises nothing but [IndexError]. *)
Lemma embed_row_exn (embeddings : ndarray T) (token : Z) (e : exn) :
  embed_row embeddings token = Raise e -> e = IndexError.
Proof.
  unfold embed_row, getitem.
  destruct (Z.eqb token (-1)); [discriminate|].
  destruct (_ && _)%bool; [|congruence].
  destruct (data embeddings !! _); congruence.
Qed.

Lemma embed_loop_exn (embeddings : ndarray T) (tokens : list Z) (i : nat)
    (output : ndarray T) (e : exn) :
  embed_loop embeddings i tokens output = Raise e -> e = IndexError.
Proof.
  revert i output. induction tokens as [|token rest IH]; intros i output; simpl.
  - discriminate.
  - destruct (embed_row embeddings token) as [row|e'] eqn:Erow; simpl.
    + apply IH.
    + intros E. injection E as <-. now apply embed_row_exn in Erow.
Qed.

(** The loop stores at position [i + j] the row of the [j]-th remaining
    token and leaves the positions before [i] alone. *)
Lemma embed_loop_lookup (embeddings : ndarray T) (tokens : list Z) (i : nat)
    (output out : ndarray T) :
  embed_loop embeddings i tokens output = Ok out ->
  i + length tokens <= length (data output) ->
  shape0 out = shape0 output /\ shape1 out = shape1 output /\
  length (data out) = length (data output) /\
  (forall k, k < i -> data out !! k = data output !! k) /\
  (forall j token, tokens !! j = Some token ->
     exists row, embed_row embeddings token = Ok row /\ data out !! (i + j) = Some row).
Proof.
  revert i output. induction tokens as [|token rest IH]; intros i output; simpl.
  - intros E _. apply Ok_inj in E. subst out. repeat split; auto.
    intros j token Hj. discriminate Hj.
  - intros E Hlen. apply bind_Ok in E. destruct E as (row & Erow & E).
    apply IH in E; [|simpl; rewrite length_insert; lia].
    simpl in E. rewrite length_insert in E.
    destruct E as (Hs0 & Hs1 & Hl & Hbefore & Hat).
    repeat split; auto.
    + intros k Hk. rewrite Hbefore by lia. apply list_lookup_insert_ne. lia.
    + intros [|j] t Hj; simpl in Hj.
      * injection Hj as <-. exists row. split; [exact Erow|].
        rewrite Nat.add_0_r, Hbefore by lia. apply list_lookup_insert_eq. lia.
      * destruct (Hat j t Hj) as (row' & Erow' & Hrow').
        exists row'. split; [exact Erow'|]. now rewrite Nat.add_succ_r.
Qed.

(** The embedded sequence holds, at each position, the row of its token. *)
Lemma embed_lookup (tokens : list Z) (embeddings out : ndarray T) (j : nat) (token : Z) :
  embed tokens embeddings = Ok out -> tokens !! j = Some token ->
  exists row, embed_row embeddings token = Ok row /\ data out !! j = Some row.
Proof.
  unfold embed. intros E Hj. apply embed_loop_lookup in E.
  - destruct E as (_ & _ & _ & _ & Hat). exact (Hat j token Hj).
  - simpl. rewrite length_replicate. lia.
Qed.

Lemma embed_shape (tokens : list Z) (embeddings out : ndarray T) :
  embed tokens embeddings = Ok out ->
  shape0 out = length tokens /\ shape1 out = shape1 embeddings /\
  length (data out) = length tokens.
Proof.
  unfold embed. intros E. apply embed_loop_lookup in E.
  - destruct E as (Hs0 & Hs1 & Hl & _). simpl in *. rewrite length_replicate in Hl. auto.
  - simpl. rewrite length_replicate. lia.
Qed.

(** One token whose row lookup fails makes [embed] raise [IndexError]. *)
Lemma embed_raises (tokens : list Z) (embeddings : ndarray T) (j : nat) (token : Z) (e : exn) :
  tokens !! j = Some token -> embed_row embeddings token = Raise e ->
  embed tokens embeddings = Raise IndexError.
Proof.
  intros Hj Erow. destruct (embed tokens embeddings) as [out|e'] eqn:E.
  - destruct (embed_lookup _ _ _ _ _ E Hj) as (row & Erow' & _). congruence.
  - f_equal. unfold embed in E. now apply embed_loop_exn in E.
Qed.

(** [embed] returns when every token has a row. *)
Lemma embed_loop_returns (embeddings : ndarray T) (tokens : list Z) (i : nat)
    (output : ndarray T) :
  Forall (fun token => exists row, embed_row embeddings token = Ok row) tokens ->
  exists out, embed_loop embeddings i tokens output = Ok out.
Proof.
  intros Hall. revert i output. induction Hall as [|token rest [row Erow] _ IH];
    intros i output; simpl.
  - eauto.
  - rewrite Erow. simpl. apply IH.
Qed.

(** The rows [embeddings[token]] selects on a well-formed array. *)
Lemma getitem_in_range (embeddings : ndarray T) (token : Z) :
  wf_ndarray embeddings ->
  (- Z.of_nat (shape0 embeddings) <= token < Z.of_nat (shape0 embeddings))%Z ->
  exists row,
    getitem embeddings token = Ok row /\
    data embeddings
      !! Z.to_nat (if Z.ltb token 0 then token + Z.of_nat (shape0 embeddings) else token)%Z
    = Some row.
Proof.
  intros [Hlen _] Hrange. unfold getitem.
  destruct (Z.leb_spec (- Z.of_nat (shape0 embeddings)) token); [|lia].
  destruct (Z.ltb_spec token (Z.of_nat (shape0 embeddings))); [|lia]. simpl.
  destruct (data embeddings !! _) as [row|] eqn:E; [eauto|].
  apply lookup_ge_None in E. destruct (Z.ltb_spec token 0); lia.
Qed.

Lemma getitem_out_of_range (embeddings : ndarray T) (token : Z) :
  (token < - Z.of_nat (shape0 embeddings) \/ Z.of_nat (shape0 embeddings) <= token)%Z ->
  getitem embeddings token = Raise IndexError.
Proof.
  intros Hrange. unfold getitem.
  destruct (Z.leb_spec (- Z.of_nat (shape0 embeddings)) token);
    destruct (Z.ltb_spec token (Z.of_nat (shape0 embeddings))); simpl; try reflexivity; lia.
Qed.

End EmbedFacts.

(* ===================================================================== *)
(** ** Sums, inner products and softmax over the reals *)
(* ===================================================================== *)

Section Exact.
Local Open Scope R_scope.

Lemma fold_left_Rplus (l : list R) (a : R) : fold_left Rplus l a = a + Rsum l.
Proof.
  revert a. induction l as [|b l IH]; intros a; simpl; [lra|]. rewrite IH. lra.
Qed.

Lemma vsum_exact (l : list R) : vsum l = Rsum l.
Proof. unfold vsum. simpl. rewrite fold_left_Rplus. lra. Qed.

(** Over the reals the order in which a sum is accumulated is immaterial. *)
Lemma vsum_exact_Permutation (l l' : list R) : Permutation l l' -> vsum l = vsum l'.
Proof.
  intros Hp. rewrite !vsum_exact.
  induction Hp as [|a l l' _ IH|a b l|l l' l'' _ IH1 _ IH2]; simpl; lra.
Qed.

Lemma vdot_exact (u v : list R) : vdot u v = dot_product u v.
Proof.
  unfold vdot, dot_product. simpl. generalize (combine u v). intros l.
  assert (E : forall a, fold_left (fun acc p => acc + fst p * snd p) l a
                        = a + Rsum (map (fun p => fst p * snd p) l)).
  { induction l as [|p l IH]; intros a; simpl; [lra|]. rewrite IH. lra. }
  rewrite E. lra.
Qed.

Lemma softmax_row_exact (l : list R) : softmax_row l = softmax_spec l.
Proof.
  unfold softmax_row, softmax_spec. simpl. now rewrite vsum_exact.
Qed.

Lemma Rsum_exp_pos (l : list R) : l <> [] -> 0 < Rsum (map exp l).
Proof.
  induction l as [|a l IH]; [congruence|]. intros _. simpl.
  pose proof (exp_pos a). destruct l as [|b l]; [simpl; lra|].
  assert (0 < Rsum (map exp (b :: l))) by (apply IH; congruence). lra.
Qed.

Lemma Rsum_div (l : list R) (s : R) : Rsum (map (fun v => v / s) l) = Rsum l / s.
Proof.
  induction l as [|a l IH]; simpl; [unfold Rdiv; ring|]. rewrite IH. unfold Rdiv. ring.
Qed.

Lemma Rsum_ge_elem (l : list R) (a : R) :
  Forall (fun v => 0 <= v) l -> In a l -> a <= Rsum l.
Proof.
  induction 1 as [|b l Hb Hl IH]; simpl; [tauto|].
  assert (0 <= Rsum l).
  { clear IH. induction Hl as [|c l Hc _ IH]; simpl; lra. }
  intros [-> | Hin]; [lra|]. specialize (IH Hin). lra.
Qed.

(** A softmax vector sums to 1 ... *)
Lemma softmax_spec_sum (l : list R) : l <> [] -> Rsum (softmax_spec l) = 1.
Proof.
  intros Hl. unfold softmax_spec.
  rewrite <- (map_map exp (fun v => v / Rsum (map exp l))), Rsum_div.
  pose proof (Rsum_exp_pos l Hl). field. lra.
Qed.

(** ... and its entries lie in [(0, 1]]. *)
Lemma softmax_spec_bounds (l : list R) (v : R) :
  In v (softmax_spec l) -> 0 < v <= 1.
Proof.
  unfold softmax_spec. intros Hv. apply in_map_iff in Hv. destruct Hv as (s & <- & Hs).
  assert (Hl : l <> []) by (intros ->; exact Hs).
  pose proof (Rsum_exp_pos l Hl) as Hpos. pose proof (exp_pos s) as Hes.
  assert (exp s <= Rsum (map exp l)).
  { apply Rsum_ge_elem; [|now apply in_map].
    apply Forall_forall. intros e He. apply list_elem_of_In, in_map_iff in He.
    destruct He as (u & <- & _). left. apply exp_pos. }
  split.
  - now apply Rdiv_lt_0_compat.
  - apply (Rmult_le_reg_r (Rsum (map exp l))); [exact Hpos|].
    unfold Rdiv. rewrite Rmult_assoc, Rinv_l by lra. lra.
Qed.

(** The scaled scores and the weights of the code are the specification's. *)
Lemma softmax_scores_exact (queries keys : ndarray R) :
  map softmax_row (data (scores queries keys)) = data (spec_weights queries keys).
Proof.
  unfold scores, spec_weights. simpl. rewrite map_map.
  apply map_ext. intros q. rewrite softmax_row_exact. f_equal.
  apply map_ext. intros k. now rewrite vdot_exact.
Qed.

End Exact.

(* ===================================================================== *)
(** ** The weight calculator in exact arithmetic *)
(* ===================================================================== *)

Lemma wf_nonempty {T : Type} (x : ndarray T) :
  wf_ndarray x -> 0 < shape0 x -> data x <> [].
Proof. intros [Hlen _] Hpos E. rewrite E in Hlen. simpl in Hlen. lia. Qed.



(** In exact arithmetic every row of the returned weights sums to 1, well
    within 1e-6, and every entry lies between 0 and 1. *)
Lemma calculate_weights_rows_exact (queries keys w : ndarray R) :
  wf_ndarray queries -> wf_ndarray keys -> 0 < shape1 keys -> 0 < shape0 keys ->
  calculate_weights queries keys = Ok w ->
  Forall (fun row => (Rabs (Rsum row - 1) <= 1 / 1000000)%R
                     /\ Forall (fun v => (0 <= v <= 1)%R) row) (data w).
Proof.
  intros Hq Hk HD Hk1 E.
  assert (Hd : shape1 queries = shape1 keys) by (now apply calculate_weights_inv in E).
  rewrite (calculate_weights_eq queries keys Hq Hk Hd) in E. cbv zeta in E. cbn [data] in E.
  rewrite softmax_scores_exact in E.
  assert (Hw : data w = data (spec_weights queries keys)).
  { destruct (data (spec_weights queries keys)) as [|row0 rows] eqn:Erows; [discriminate|].
    destruct (seq_one (vsum row0)); [|discriminate]. apply Ok_inj in E. now subst w. }
  rewrite Hw. unfold spec_weights. cbn [data].
  apply Forall_map, Forall_forall. intros q _. cbn beta.
  pose proof (wf_nonempty keys Hk Hk1) as Hkne. split.
  - rewrite softmax_spec_sum by (destruct (data keys); [congruence | discriminate]).
    rewrite Rminus_diag, Rabs_R0. lra.
  - apply Forall_forall. intros v Hv. apply list_elem_of_In, softmax_spec_bounds in Hv. lra.
Qed.

(* ===================================================================== *)
(** ** Softmax with the maximum subtracted *)
(* ===================================================================== *)

Section Stabilized.
Local Open Scope R_scope.

(** [vmax] is the maximum: it bounds every element, so the stabilized
    variant exponentiates numbers that are at most 0. *)
Lemma vmax_ge (l : list R) (v : R) : In v l -> v <= vmax l.
Proof.
  destruct l as [|a l]; [intros []|]. unfold vmax.
  assert (Hacc : forall l' b, b <= fold_left Rmax l' b
                              /\ forall u, In u l' -> u <= fold_left Rmax l' b).
  { induction l' as [|c l' IH]; intros b; simpl; [split; [lra | tauto]|].
    destruct (IH (Rmax b c)) as [Hb Hin].
    pose proof (Rmax_l b c). pose proof (Rmax_r b c).
    split; [lra|]. intros u [<- | Hu]; [lra | now apply Hin]. }
  destruct (Hacc l a) as [Ha Hin]. intros [<- | Hv]; [exact Ha | now apply Hin].
Qed.

Lemma Rsum_exp_shift (l : list R) (m : R) :
  Rsum (map exp (map (fun u => u - m) l)) = Rsum (map exp l) * exp (- m).
Proof.
  induction l as [|a l IH]; simpl; [ring|]. rewrite IH.
  replace (a - m) with (a + - m) by ring. rewrite exp_plus. ring.
Qed.

(** Shifting a vector by a constant leaves each softmax quotient as it is. *)
Lemma softmax_shift (l : list R) (m v : R) :
  l <> [] ->
  exp (v - m) / Rsum (map exp (map (fun u => u - m) l)) = exp v / Rsum (map exp l).
Proof.
  intros Hl. rewrite Rsum_exp_shift.
  replace (v - m) with (v + - m) by ring. rewrite exp_plus.
  pose proof (Rsum_exp_pos l Hl). pose proof (exp_pos (- m)). field. lra.
Qed.

Lemma column_as_table (x : ndarray R) (j : nat) :
  wf_ndarray x -> column x j = map (fun i => get x i j) (seq 0 (shape0 x)).
Proof.
  intros [Hlen _]. unfold column, get. symmetry.
  exact (map_nth_seq (fun row => nth j row szero) (data x) [] (shape0 x) Hlen).
Qed.

Lemma row_as_table (x : ndarray R) (i : nat) :
  wf_ndarray x -> (i < shape0 x)%nat ->
  nth i (data x) [] = map (fun j => get x i j) (seq 0 (shape1 x)).
Proof.
  intros [Hlen Hrows] Hi. unfold get. symmetry.
  rewrite (map_nth_seq (fun v => v)) by (apply Forall_nth_length; [exact Hrows | lia]).
  apply map_id.
Qed.

(** The slices of an array shifted by a number per slice are the slices of
    the array, shifted. *)
Lemma slice_shifted (x : ndarray R) (ax i j : nat) (m : nat -> nat -> R) :
  wf_ndarray x -> (i < shape0 x)%nat -> (j < shape1 x)%nat ->
  (forall i' j', m i' j' = match ax with O => m 0%nat j' | _ => m i' 0%nat end) ->
  slice (tabulate (shape0 x) (shape1 x) (fun i' j' => get x i' j' - m i' j')) ax i j
  = map (fun u => u - m i j) (slice x ax i j).
Proof.
  intros Hwf Hi Hj Hm. destruct ax as [|ax]; cbn [slice].
  - rewrite column_tabulate by exact Hj. rewrite (column_as_table x j Hwf), map_map.
    apply map_ext. intros i'. now rewrite (Hm i' j), (Hm i j).
  - rewrite row_tabulate by exact Hi. rewrite (row_as_table x i Hwf Hi), map_map.
    apply map_ext. intros j'. now rewrite (Hm i j'), (Hm i j).
Qed.

Lemma slice_nonempty (x : ndarray R) (ax i j : nat) :
  wf_ndarray x -> (i < shape0 x)%nat -> (j < shape1 x)%nat -> slice x ax i j <> [].
Proof.
  intros Hwf Hi Hj E. apply (f_equal (@length R)) in E. simpl in E.
  destruct Hwf as [Hlen Hrows]. destruct ax as [|ax]; simpl in E.
  - rewrite column_length in E. lia.
  - rewrite (Forall_nth_length _ (shape1 x)) in E; [lia | exact Hrows | lia].
Qed.

(** C8: for every matrix and every axis, the softmax of the code (exponentiate
    each element, divide by the sum of the exponentials along the axis)
    equals, over the reals, the variant that first subtracts the maximum
    along the axis; an axis out of range is an error in both. *)
Theorem softmax_stable_eq (x : ndarray R) (axis : Z) :
  wf_ndarray x -> softmax_stable x axis = softmax x axis.
Proof.
  intros Hwf. unfold softmax_stable, np_amax.
  destruct (normalize_axis_cases axis) as [[Hax _] | [[Hax _] | [Hax _]]].
  3: { unfold softmax, np_sum. now rewrite Hax. }
  all: rewrite Hax; cbn [bind].
  all: erewrite (broadcast2_expand_dims Rminus x vmax axis _ _ Hwf Hax) by reflexivity.
  all: cbn [bind]; cbv zeta.
  all: match goal with
       | |- context [np_sum (np_exp ?z) ?a] =>
           change (softmax z a = softmax x a)
       end.
  all: rewrite (softmax_tabulate _ axis _ (tabulate_wf _ _ _) Hax).
  all: rewrite (softmax_tabulate x axis _ Hwf Hax).
  all: f_equal; apply tabulate_ext; intros i j Hi Hj; cbn [shape0 shape1 tabulate] in Hi, Hj.
  all: cbn [shape0 shape1 tabulate].
  all: rewrite get_tabulate by assumption.
  all: rewrite (slice_shifted x _ i j (fun i' j' => vmax (slice x _ i' j')) Hwf Hi Hj)
         by reflexivity.
  all: rewrite !vsum_exact; cbn [sdiv sexp R_scalar].
  all: apply softmax_shift, slice_nonempty; assumption.
Qed.

(** An instance: a 2x2 matrix, along its rows. *)
Lemma softmax_stable_eq_witness :
  softmax_stable (NDArray 2 2 [[1; 2]; [3; 4]]) 1 = softmax (NDArray 2 2 [[1; 2]; [3; 4]]) 1.
Proof.
  apply softmax_stable_eq. split; simpl; repeat constructor.
Defined.

End Stabilized.

(* ===================================================================== *)
(** ** The weight calculator in binary64 *)
(* ===================================================================== *)

Section Binary64.

(** IEEE division of a finite nonzero number by itself is exactly 1. *)
Lemma SF64div_self (s : bool) (m : positive) (e : Z) :
  SF64div (S754_finite s m e) (S754_finite s m e) = Prim2SF 1%float.
Proof.
  unfold SF64div, SFdiv, SFdiv_core_binary.
  replace (Z.sub (Z.add (Zdigits2 (Zpos m)) e) (Z.add (Zdigits2 (Zpos m)) e)) with 0%Z by lia.
  replace (Z.sub e e) with 0%Z by lia.
  change (Z.min (fexp prec emax 0) 0) with (-53)%Z.
  change (Z.sub 0 (-53)) with 53%Z. cbv iota beta.
  assert (Hd : Z.div_eucl (Z.shiftl (Z.pos m) 53) (Z.pos m) = (2 ^ 53, 0)%Z).
  { rewrite Z.shiftl_mul_pow2 by lia.
    pose proof (Z.div_mul (2 ^ 53) (Z.pos m) ltac:(lia)) as Hq.
    pose proof (Z.mod_mul (2 ^ 53) (Z.pos m) ltac:(lia)) as Hr.
    rewrite (Z.mul_comm (Z.pos m)).
    unfold Z.div, Z.modulo in Hq, Hr.
    destruct (Z.div_eucl (2 ^ 53 * Z.pos m) (Z.pos m)) as [q r].
    congruence. }
  rewrite Hd.
  replace (xorb s s) with false by (destruct s; reflexivity).
  unfold new_location. destruct (Z.even (Z.pos m)); vm_compute; reflexivity.
Qed.

Lemma float_div_self (x : float) : finite_nonzero x = true -> (x / x)%float = 1%float.
Proof.
  unfold finite_nonzero. intros Hx. apply Prim2SF_inj. rewrite div_spec.
  destruct (Prim2SF x); try discriminate. apply SF64div_self.
Qed.

Lemma float_zero_add (x : float) : finite_nonzero x = true -> (0 + x)%float = x.
Proof.
  unfold finite_nonzero. intros Hx. apply Prim2SF_inj. rewrite add_spec.
  destruct (Prim2SF x); try discriminate. reflexivity.
Qed.

(** C6, as amended: for a single row of D > 0 columns whose score against
    itself has a finite nonzero exponential in binary64 (no overflow, no NaN),
    [calculate_weights] of the row with itself returns exactly [[1.0]],
    whatever implementation of [exp] is used. *)
Theorem self_attention_single_row (fexp : float -> float) (D : nat) (row : list float) :
  length row = D -> 0 < D ->
  finite_nonzero (fexp (self_score row)) = true ->
  @calculate_weights float (float_scalar fexp) (NDArray 1 D [row]) (NDArray 1 D [row])
  = Ok (NDArray 1 1 [[1%float]]).
Proof.
  intros <- _ Hfin.
  assert (Hwf : wf_ndarray (NDArray 1 (length row) [row]))
    by (split; simpl; repeat constructor).
  rewrite (@calculate_weights_eq float (float_scalar fexp) _ _ Hwf Hwf eq_refl).
  cbv zeta. cbn [data scores map softmax_row shape0 shape1].
  change (@sdiv float (float_scalar fexp)
            (@vdot float (float_scalar fexp) row row)
            (@ssqrt float (float_scalar fexp)
               (@sof_nat float (float_scalar fexp) (length row))))
    with (self_score row).
  unfold vsum. cbn [fold_left sadd sdiv sexp szero seq_one float_scalar].
  rewrite !(float_zero_add _ Hfin), !(float_div_self _ Hfin).
  reflexivity.
Qed.

(** An instance: the row [1.0, 2.0], with the stand-in for [exp]. *)
Lemma self_attention_single_row_witness :
  @calculate_weights float float64 (NDArray 1 2 [[1; 2]%float]) (NDArray 1 2 [[1; 2]%float])
  = Ok (NDArray 1 1 [[1%float]]).
Proof.
  apply (self_attention_single_row libm_exp 2 [1; 2]%float); [reflexivity | lia |].
  vm_compute. reflexivity.
Defined.

(** C6 as stated fails when the exponential overflows: the score of
    [[100.0]] against itself is 10000, its exponential is [+inf], the
    quotient [inf / inf] is NaN and the assertion [nan == 1] fails. *)
Lemma self_attention_overflow_raises :
  @calculate_weights float float64 (NDArray 1 1 [[100%float]]) (NDArray 1 1 [[100%float]])
  = Raise AssertionError.
Proof. vm_compute. reflexivity. Qed.

(** The same for any [exp] that overflows at 10000. *)
Lemma self_attention_overflow_any_exp (fexp : float -> float) :
  fexp 10000%float = infinity ->
  @calculate_weights float (float_scalar fexp) (NDArray 1 1 [[100%float]]) (NDArray 1 1 [[100%float]])
  = Raise AssertionError.
Proof.
  intros Hinf.
  rewrite (@calculate_weights_eq float (float_scalar fexp));
    [| split; simpl; repeat constructor .. | reflexivity].
  cbv zeta. cbn [data scores map softmax_row shape0 shape1].
  unfold vsum, vdot. cbn [fold_left combine fst snd sadd smul sdiv sexp ssqrt sof_nat szero float_scalar].
  replace (((0 + 100 * 100) / PrimFloat.sqrt (SF2Prim (binary_normalize prec emax (Z.of_nat 1) 0 false)))%float)
    with 10000%float by (vm_compute; reflexivity).
  rewrite Hinf. vm_compute. reflexivity.
Qed.

(** C2 fails in binary64: with queries [[0.0], [100.0]] and the key
    [[100.0]] the scores are 0 and 10000.  The first row is [1.0], so the
    assertion, which looks at the first row only, passes; the second row is
    [inf / inf], NaN, which neither sums to 1 nor lies between 0 and 1. *)
Theorem calculate_weights_returns_nan_row :
  @calculate_weights float float64
     (NDArray 2 1 [[0%float]; [100%float]]) (NDArray 1 1 [[100%float]])
  = Ok (NDArray 2 1 [[1%float]; [nan]])
  /\ PrimFloat.leb 0 nan = false /\ PrimFloat.leb nan 1 = false
  /\ PrimFloat.leb (abs (@vsum float float64 [nan] - 1)) 0x1.0c6f7a0b5ed8dp-20 = false.
Proof. vm_compute. repeat split; reflexivity. Qed.

(** The same for any [exp] with [exp 0 = 1] that overflows at 10000. *)
Lemma calculate_weights_nan_row_any_exp (fexp : float -> float) :
  fexp 0%float = 1%float -> fexp 10000%float = infinity ->
  @calculate_weights float (float_scalar fexp)
     (NDArray 2 1 [[0%float]; [100%float]]) (NDArray 1 1 [[100%float]])
  = Ok (NDArray 2 1 [[1%float]; [nan]]).
Proof.
  intros H0 Hinf.
  rewrite (@calculate_weights_eq float (float_scalar fexp));
    [| split; simpl; repeat constructor .. | reflexivity].
  cbv zeta. cbn [data scores map softmax_row shape0 shape1].
  unfold vsum, vdot. cbn [fold_left combine fst snd sadd smul sdiv sexp ssqrt sof_nat szero float_scalar].
  replace (((0 + 100 * 100) / PrimFloat.sqrt (SF2Prim (binary_normalize prec emax (Z.of_nat 1) 0 false)))%float)
    with 10000%float by (vm_compute; reflexivity).
  replace (((0 + 0 * 100) / PrimFloat.sqrt (SF2Prim (binary_normalize prec emax (Z.of_nat 1) 0 false)))%float)
    with 0%float by (vm_compute; reflexivity).
  rewrite H0, Hinf. vm_compute. reflexivity.
Qed.

End Binary64.

(* ===================================================================== *)
(** ** The aggregator and the shape errors *)
(* ===================================================================== *)

(** C4: when the queries and the keys differ in their number of columns,
    [calculate_weights] raises the shape error of [np.dot]; nothing catches
    it, so [attention_qkv] raises it too. *)
Theorem calculate_weights_shape_mismatch (T : Type) (S : Scalar T) (queries keys : ndarray T) :
  shape1 queries <> shape1 keys ->
  calculate_weights queries keys = Raise ShapeMismatch
  /\ forall values, attention_qkv queries keys values = Raise ShapeMismatch.
Proof.
  intros Hd.
  assert (E : calculate_weights queries keys = Raise ShapeMismatch).
  { unfold calculate_weights, np_dot. cbn [transpose shape0].
    now destruct (Nat.eqb_spec (shape1 queries) (shape1 keys)). }
  split; [exact E|]. intros values. unfold attention_qkv. now rewrite E.
Qed.

(** An instance: two columns against three. *)
Lemma calculate_weights_shape_mismatch_witness :
  @calculate_weights float float64
     (NDArray 1 2 [[1; 2]%float]) (NDArray 1 3 [[1; 2; 3]%float])
  = Raise ShapeMismatch.
Proof.
  apply (calculate_weights_shape_mismatch float float64
           (NDArray 1 2 [[1; 2]%float]) (NDArray 1 3 [[1; 2; 3]%float])).
  simpl. lia.
Defined.

(** C5, as amended: when the keys and the values differ in their number of
    rows, [attention_qkv] never returns: it raises the shape error of
    [np.dot] when [calculate_weights] returns, and the error of
    [calculate_weights] otherwise. *)
Theorem attention_qkv_rows_mismatch (T : Type) (S : Scalar T) (queries keys values : ndarray T) :
  shape0 keys <> shape0 values ->
  attention_qkv queries keys values
  = match calculate_weights queries keys with
    | Ok _ => Raise ShapeMismatch
    | Raise e => Raise e
    end.
Proof.
  intros Hkv. unfold attention_qkv.
  destruct (calculate_weights queries keys) as [w|e] eqn:Hw; [|reflexivity].
  cbn [bind]. unfold np_dot. rewrite (calculate_weights_shape1 _ _ _ Hw).
  now destruct (Nat.eqb_spec (shape0 keys) (shape0 values)).
Qed.

(** An instance: one key against two values. *)
Lemma attention_qkv_rows_mismatch_witness :
  @attention_qkv float float64
     (NDArray 1 2 [[1; 2]%float]) (NDArray 1 2 [[1; 2]%float])
     (NDArray 2 1 [[5%float]; [6%float]])
  = Raise ShapeMismatch.
Proof.
  rewrite (attention_qkv_rows_mismatch float float64
             (NDArray 1 2 [[1; 2]%float]) (NDArray 1 2 [[1; 2]%float])
             (NDArray 2 1 [[5%float]; [6%float]])).
  - vm_compute. reflexivity.
  - simpl. lia.
Defined.

(** C5 as stated fails when [calculate_weights] raises first: with no query
    (exact arithmetic) it is an [IndexError], and with an overflowing score
    (binary64) an [AssertionError], although keys and values differ in their
    number of rows. *)
Lemma attention_qkv_rows_mismatch_other_error :
  attention_qkv (NDArray 0 1 []) (NDArray 1 1 [[1%R]]) (NDArray 2 1 [[5%R]; [6%R]])
  = Raise IndexError
  /\ @attention_qkv float float64
       (NDArray 1 1 [[100%float]]) (NDArray 1 1 [[100%float]])
       (NDArray 2 1 [[5%float]; [6%float]])
     = Raise AssertionError
  /\ IndexError <> ShapeMismatch /\ AssertionError <> ShapeMismatch.
Proof.
  split; [reflexivity|]. split; [vm_compute; reflexivity|]. split; discriminate.
Qed.

(* ===================================================================== *)
(** ** Tokenizer and embedder *)
(* ===================================================================== *)

(** C7: tokenizing "hello world" against the vocabulary {"hello": 0} gives
    [0, -1]; embedding that over the one-row matrix [[1.0, 2.0]] gives
    [[1.0, 2.0], [0.0, 0.0]]; and in every embedded sequence each position
    whose token is -1 holds a row of zeros, wherever it is. *)
Theorem tokenize_embed_oov :
  tokenize "hello world" {[ "hello"%string := 0%Z ]} = [0; -1]%Z
  /\ @embed float float64 (tokenize "hello world" {[ "hello"%string := 0%Z ]})
       (NDArray 1 2 [[1; 2]%float])
     = Ok (NDArray 2 2 [[1; 2]%float; [0; 0]%float])
  /\ forall (T : Type) (S : Scalar T) (tokens : list Z) (embeddings out : ndarray T) (i : nat),
       embed tokens embeddings = Ok out -> tokens !! i = Some (-1)%Z ->
       data out !! i = Some (replicate (shape1 embeddings) szero).
Proof.
  split; [vm_compute; reflexivity|]. split; [vm_compute; reflexivity|].
  intros T S tokens embeddings out i E Hi.
  destruct (embed_lookup tokens embeddings out i (-1)%Z E Hi) as (row & Erow & Hrow).
  unfold embed_row in Erow. cbn [Z.eqb Pos.eqb] in Erow. apply Ok_inj in Erow.
  now subst row.
Qed.

(** An instance: the sentinel first and last in a sequence of three. *)
Lemma tokenize_embed_oov_witness :
  @data float (NDArray 3 2 [[0; 0]%float; [1; 2]%float; [0; 0]%float]) !! 2
  = Some (replicate 2 0%float).
Proof.
  exact (proj2 (proj2 tokenize_embed_oov) float float64 [-1; 0; -1]%Z
           (NDArray 1 2 [[1; 2]%float])
           (NDArray 3 2 [[0; 0]%float; [1; 2]%float; [0; 0]%float]) 2 eq_refl eq_refl).
Defined.

(** C10, as amended: [embed] treats only the token -1 as out of vocabulary.
    For a token other than -1 at some position, with n the number of rows of
    the embedding matrix: a negative token not below -n selects the row
    counted from the end, row n + token; a token at or beyond n, or below -n,
    makes [embed] raise [IndexError]; and [embed] returns when every token is
    -1 or lies between -n and n - 1. *)
Theorem embed_negative_tokens (T : Type) (S : Scalar T) (tokens : list Z)
    (embeddings : ndarray T) (i : nat) (token : Z) :
  wf_ndarray embeddings -> tokens !! i = Some token -> token <> (-1)%Z ->
  ((token < - Z.of_nat (shape0 embeddings) \/ Z.of_nat (shape0 embeddings) <= token)%Z ->
     embed tokens embeddings = Raise IndexError)
  /\ ((- Z.of_nat (shape0 embeddings) <= token < 0)%Z ->
      forall out, embed tokens embeddings = Ok out ->
      exists row,
        data embeddings !! Z.to_nat (Z.of_nat (shape0 embeddings) + token) = Some row
        /\ data out !! i = Some row)
  /\ (Forall (fun t => t = (-1)%Z
                       \/ (- Z.of_nat (shape0 embeddings) <= t < Z.of_nat (shape0 embeddings))%Z)
             tokens ->
      exists out, embed tokens embeddings = Ok out).
Proof.
  intros Hwf Hi Hne.
  assert (Erow : embed_row embeddings token = getitem embeddings token).
  { unfold embed_row. now destruct (Z.eqb_spec token (-1)). }
  split; [|split].
  - intros Hrange. apply (embed_raises tokens embeddings i token IndexError Hi).
    rewrite Erow. now apply getitem_out_of_range.
  - intros Hrange out E.
    destruct (embed_lookup tokens embeddings out i token E Hi) as (row & Erow' & Hrow).
    destruct (getitem_in_range embeddings token Hwf ltac:(lia)) as (row' & Eget & Hlook).
    rewrite Erow, Eget in Erow'. apply Ok_inj in Erow'. subst row'.
    exists row. split; [|exact Hrow].
    destruct (Z.ltb_spec token 0); [|lia]. now rewrite Z.add_comm.
  - intros Hall. unfold embed. apply embed_loop_returns.
    eapply Forall_impl; [exact Hall|]. intros t [-> | Hrange]; simpl.
    + unfold embed_row. simpl. eauto.
    + unfold embed_row. destruct (Z.eqb t (-1)); [eauto|].
      destruct (getitem_in_range embeddings t Hwf Hrange) as (row & Eget & _). eauto.
Qed.

(** An instance: token -2 on three rows selects the second row. *)
Lemma embed_negative_tokens_witness :
  exists row,
    @data float (NDArray 3 2 [[1; 2]%float; [3; 4]%float; [5; 6]%float])
      !! Z.to_nat (Z.of_nat 3 + -2) = Some row
    /\ @data float (NDArray 2 2 [[1; 2]%float; [3; 4]%float]) !! 1 = Some row.
Proof.
  refine (proj1 (proj2 (embed_negative_tokens float float64 [0; -2]%Z
                          (NDArray 3 2 [[1; 2]%float; [3; 4]%float; [5; 6]%float])
                          1 (-2)%Z _ eq_refl _)) _
            (NDArray 2 2 [[1; 2]%float; [3; 4]%float]) eq_refl).
  - split; simpl; repeat constructor.
  - lia.
  - simpl. lia.
Defined.

(** C10 as stated fails for a negative token below minus the row count: -2
    on a one-row matrix selects no row, the lookup raises [IndexError]. *)
Lemma embed_negative_token_raises :
  @embed float float64 [-2]%Z (NDArray 1 2 [[1; 2]%float]) = Raise IndexError.
Proof. vm_compute. reflexivity. Qed.

(* ===================================================================== *)
(** ** More on the tokenizer *)
(* ===================================================================== *)

Section TokenizeFacts.

(** The token of one word. *)
Definition token_of (token_mapping : gmap string Z) (word : string) : Z :=
  match token_mapping !! word with
  | Some token => token
  | None => (-1)%Z
  end.

(** The loop of [tokenize] maps each word to its token. *)
Lemma tokenize_map (sentence : string) (token_mapping : gmap string Z) :
  tokenize sentence token_mapping
  = map (token_of token_mapping) (split_space (lower sentence)).
Proof.
  unfold tokenize.
  assert (E : forall words acc,
             fold_left (fun tokenized word =>
                          match token_mapping !! word with
                          | Some token => tokenized ++ [token]
                          | None => tokenized ++ [(-1)%Z]
                          end) words acc
             = acc ++ map (token_of token_mapping) words).
  { induction words as [|w words IH]; intros acc; simpl; [now rewrite app_nil_r|].
    rewrite IH. unfold token_of.
    destruct (token_mapping !! w); now rewrite <- app_assoc. }
  now rewrite E.
Qed.

Lemma split_space_nonempty (s : string) : split_space s <> [].
Proof.
  induction s as [|c s IH]; simpl; [discriminate|].
  destruct (split_space s); [congruence|]. now destruct (Ascii.eqb c Ascii.Space).
Qed.

(** The number of spaces of a string. *)
Fixpoint count_spaces (s : string) : nat :=
  match s with
  | EmptyString => 0
  | String c s' => (if Ascii.eqb c Ascii.Space then 1 else 0) + count_spaces s'
  end.

Lemma split_space_length (s : string) : length (split_space s) = S (count_spaces s).
Proof.
  induction s as [|c s IH]; simpl; [reflexivity|].
  pose proof (split_space_nonempty s) as Hne.
  destruct (split_space s) as [|w ws]; [congruence|].
  destruct (Ascii.eqb c Ascii.Space); simpl in *; lia.
Qed.

Lemma lower_ascii_space (c : Ascii.ascii) :
  Ascii.eqb (lower_ascii c) Ascii.Space = Ascii.eqb c Ascii.Space.
Proof. destruct c as [[] [] [] [] [] [] [] []]; reflexivity. Qed.

Lemma lower_ascii_idempotent (c : Ascii.ascii) : lower_ascii (lower_ascii c) = lower_ascii c.
Proof. destruct c as [[] [] [] [] [] [] [] []]; reflexivity. Qed.

Lemma lower_idempotent (s : string) : lower (lower s) = lower s.
Proof.
  induction s as [|c s IH]; simpl; [reflexivity|]. now rewrite lower_ascii_idempotent, IH.
Qed.

(** Lowering a string lowers its pieces: the spaces stay where they are. *)
Lemma split_space_lower (s : string) : split_space (lower s) = map lower (split_space s).
Proof.
  induction s as [|c s IH]; simpl; [reflexivity|].
  rewrite IH, lower_ascii_space.
  destruct (split_space s) as [|w ws]; simpl; [reflexivity|].
  now destruct (Ascii.eqb c Ascii.Space).
Qed.

Lemma split_space_app (s1 s2 : string) :
  split_space (s1 +:+ String Ascii.Space s2) = split_space s1 ++ split_space s2.
Proof.
  induction s1 as [|c s1 IH]; simpl.
  - pose proof (split_space_nonempty s2). now destruct (split_space s2).
  - rewrite IH. pose proof (split_space_nonempty s1).
    destruct (split_space s1) as [|w ws]; [congruence|]. simpl.
    now destruct (Ascii.eqb c Ascii.Space).
Qed.

Lemma lower_app (s1 s2 : string) : lower (s1 +:+ s2) = lower s1 +:+ lower s2.
Proof. induction s1 as [|c s1 IH]; simpl; [reflexivity|]. now rewrite IH. Qed.

(** X1: [tokenize] returns one token per piece of [sentence.split(" ")]:
    one more than the sentence has spaces, so at least one, also for the
    empty sentence. *)
Theorem tokenize_length (sentence : string) (token_mapping : gmap string Z) :
  length (tokenize sentence token_mapping) = length (split_space sentence)
  /\ length (tokenize sentence token_mapping) = S (count_spaces sentence).
Proof.
  rewrite tokenize_map, length_map, split_space_lower, length_map.
  split; [reflexivity | apply split_space_length].
Qed.


(** X3: the tokens of two sentences joined by a space are the tokens of the
    first followed by the tokens of the second. *)
Theorem tokenize_app (s1 s2 : string) (token_mapping : gmap string Z) :
  tokenize (s1 +:+ String Ascii.Space s2) token_mapping
  = tokenize s1 token_mapping ++ tokenize s2 token_mapping.
Proof.
  rewrite !tokenize_map, lower_app. cbn [lower].
  change (lower_ascii Ascii.Space) with Ascii.Space.
  now rewrite split_space_app, map_app.
Qed.

(** X4: words are looked up in lower case, so an entry of the mapping whose
    key has an upper-case ASCII letter is never used: adding one changes no
    token. *)
Theorem tokenize_uppercase_key_unused (sentence : string) (token_mapping : gmap string Z)
    (key : string) (token : Z) :
  lower key <> key ->
  tokenize sentence (<[key := token]> token_mapping) = tokenize sentence token_mapping.
Proof.
  intros Hkey. rewrite !tokenize_map, split_space_lower, !map_map.
  apply map_ext. intros word. unfold token_of.
  rewrite lookup_insert_ne; [reflexivity|].
  intros ->. apply Hkey. apply lower_idempotent.
Qed.

(** An instance: the key "Hello" does not serve the word "Hello". *)
Lemma tokenize_uppercase_key_unused_witness :
  tokenize "Hello world" (<[ "Hello"%string := 5%Z ]> {[ "world"%string := 1%Z ]})
  = tokenize "Hello world" {[ "world"%string := 1%Z ]}.
Proof.
  apply tokenize_uppercase_key_unused. vm_compute. discriminate.
Defined.

End TokenizeFacts.

(* ===================================================================== *)
(** ** More on the embedder *)
(* ===================================================================== *)

Lemma traverse_app {A B : Type} (f : A -> result B) (l1 l2 : list A) :
  traverse f (l1 ++ l2)
  = (bs1 <- traverse f l1 ;; bs2 <- traverse f l2 ;; Ok (bs1 ++ bs2)).
Proof.
  induction l1 as [|a l1 IH]; simpl.
  - now destruct (traverse f l2).
  - destruct (f a) as [b|e]; simpl; [|reflexivity]. rewrite IH.
    destruct (traverse f l1) as [bs1|e]; simpl; [|reflexivity].
    now destruct (traverse f l2).
Qed.

Lemma traverse_Forall2 {A B : Type} (f : A -> result B) (l : list A) (bs : list B) :
  traverse f l = Ok bs -> Forall2 (fun a b => f a = Ok b) l bs.
Proof.
  revert bs. induction l as [|a l IH]; simpl; intros bs E.
  - apply Ok_inj in E. subst bs. constructor.
  - apply bind_Ok in E. destruct E as (b & Eb & E).
    apply bind_Ok in E. destruct E as (bs' & Ebs & E). apply Ok_inj in E. subst bs.
    constructor; [exact Eb | now apply IH].
Qed.

Section EmbedMore.
Context {T : Type} `{Scalar T}.

Lemma ndarray_eta (x : ndarray T) : NDArray (shape0 x) (shape1 x) (data x) = x.
Proof. now destruct x. Qed.

(** The loop of [embed] fills the positions from [i] on with the rows of
    the tokens, or raises what the first failing token raises. *)
Lemma embed_loop_traverse (embeddings : ndarray T) (tokens : list Z) (i : nat)
    (output : ndarray T) :
  length (data output) = i + length tokens ->
  embed_loop embeddings i tokens output
  = (rows <- traverse (embed_row embeddings) tokens ;;
     Ok (NDArray (shape0 output) (shape1 output) (take i (data output) ++ rows))).
Proof.
  revert i output. induction tokens as [|token rest IH]; intros i output Hlen; simpl.
  - simpl in Hlen. rewrite take_ge by lia. now rewrite app_nil_r, ndarray_eta.
  - destruct (embed_row embeddings token) as [row|e]; simpl; [|reflexivity].
    rewrite IH by (simpl in *; rewrite length_insert; lia). simpl.
    destruct (traverse (embed_row embeddings) rest) as [rows|e]; simpl; [|reflexivity].
    f_equal. f_equal.
    rewrite (take_S_r _ _ row) by (apply list_lookup_insert_eq; simpl in Hlen; lia).
    rewrite take_insert_ge by lia. now rewrite <- app_assoc.
Qed.

(** [embed] gathers the rows of the tokens. *)
Lemma embed_traverse (tokens : list Z) (embeddings : ndarray T) :
  embed tokens embeddings
  = (rows <- traverse (embed_row embeddings) tokens ;;
     Ok (NDArray (length tokens) (shape1 embeddings) rows)).
Proof.
  unfold embed. rewrite embed_loop_traverse by (simpl; now rewrite length_replicate).
  reflexivity.
Qed.

Lemma embed_row_length (embeddings : ndarray T) (token : Z) (row : list T) :
  wf_ndarray embeddings -> embed_row embeddings token = Ok row ->
  length row = shape1 embeddings.
Proof.
  intros [_ Hrows]. unfold embed_row, getitem.
  destruct (Z.eqb token (-1)).
  - intros E. apply Ok_inj in E. subst row. apply length_replicate.
  - destruct (_ && _)%bool; [|discriminate].
    destruct (data embeddings !! _) as [row'|] eqn:E; [|discriminate].
    intros E'. apply Ok_inj in E'. subst row'.
    rewrite Forall_forall in Hrows. apply Hrows. eapply list_elem_of_lookup_2, E.
Qed.

(** X5: over a well-formed embedding matrix, the array [embed] returns has
    one row per token and the columns of the embedding matrix, and is
    rectangular. *)
Theorem embed_returns_wf (tokens : list Z) (embeddings out : ndarray T) :
  wf_ndarray embeddings -> embed tokens embeddings = Ok out ->
  shape0 out = length tokens /\ shape1 out = shape1 embeddings /\ wf_ndarray out.
Proof.
  intros Hwf E. rewrite embed_traverse in E.
  apply bind_Ok in E. destruct E as (rows & Erows & E). apply Ok_inj in E. subst out.
  apply traverse_Forall2 in Erows. repeat split; simpl.
  - symmetry. eapply Forall2_length, Erows.
  - induction Erows as [|token row tokens' rows' Hrow _ IH]; constructor; [|exact IH].
    eapply embed_row_length; eassumption.
Qed.

(** X6: a token between 0 and the number of rows of the embedding matrix
    gets, at its position of the embedded sequence, the row of that index. *)
Theorem embed_in_vocabulary (tokens : list Z) (embeddings out : ndarray T) (i : nat)
    (token : Z) :
  wf_ndarray embeddings -> embed tokens embeddings = Ok out ->
  tokens !! i = Some token -> (0 <= token < Z.of_nat (shape0 embeddings))%Z ->
  exists row, data embeddings !! Z.to_nat token = Some row /\ data out !! i = Some row.
Proof.
  intros Hwf E Hi Hrange.
  destruct (embed_lookup tokens embeddings out i token E Hi) as (row & Erow & Hrow).
  destruct (getitem_in_range embeddings token Hwf ltac:(lia)) as (row' & Eget & Hlook).
  unfold embed_row in Erow. destruct (Z.eqb_spec token (-1)); [lia|].
  rewrite Eget in Erow. apply Ok_inj in Erow. subst row'.
  exists row. split; [|exact Hrow]. destruct (Z.ltb_spec token 0); [lia | exact Hlook].
Qed.

(** X7: embedding two token sequences one after the other is embedding
    each and stacking the rows; it raises what the first of them raises. *)
Theorem embed_app (tokens1 tokens2 : list Z) (embeddings : ndarray T) :
  embed (tokens1 ++ tokens2) embeddings
  = (out1 <- embed tokens1 embeddings ;;
     out2 <- embed tokens2 embeddings ;;
     Ok (NDArray (shape0 out1 + shape0 out2) (shape1 embeddings) (data out1 ++ data out2))).
Proof.
  rewrite !embed_traverse, traverse_app, length_app.
  destruct (traverse (embed_row embeddings) tokens1) as [rows1|e]; simpl; [|reflexivity].
  now destruct (traverse (embed_row embeddings) tokens2).
Qed.

(** X8: a sequence of unknown tokens (-1) only, the empty sequence among
    them, embeds as the array of zeros, whatever the embedding matrix holds. *)
Theorem embed_all_unknown (tokens : list Z) (embeddings : ndarray T) :
  Forall (fun token => token = (-1)%Z) tokens ->
  embed tokens embeddings = Ok (np_zeros (length tokens) (shape1 embeddings)).
Proof.
  intros Hall. rewrite embed_traverse.
  assert (E : traverse (embed_row embeddings) tokens
              = Ok (replicate (length tokens) (replicate (shape1 embeddings) szero))).
  { induction Hall as [|token rest -> _ IH]; simpl; [reflexivity|].
    rewrite IH. reflexivity. }
  rewrite E. reflexivity.
Qed.

(** X9: when every entry of the vocabulary is -1 or a valid row index of the
    embedding matrix, every sentence embeds: [embed] after [tokenize] raises
    nothing, and returns one row per piece of [sentence.split(" ")]. *)
Theorem embed_tokenize_returns (sentence : string) (token_mapping : gmap string Z)
    (embeddings : ndarray T) :
  wf_ndarray embeddings ->
  (forall word token, token_mapping !! word = Some token ->
     token = (-1)%Z
     \/ (- Z.of_nat (shape0 embeddings) <= token < Z.of_nat (shape0 embeddings))%Z) ->
  exists out,
    embed (tokenize sentence token_mapping) embeddings = Ok out
    /\ shape0 out = length (split_space sentence)
    /\ shape1 out = shape1 embeddings.
Proof.
  intros Hwf Hvocab.
  assert (Hall : Forall (fun token => exists row, embed_row embeddings token = Ok row)
                        (tokenize sentence token_mapping)).
  { rewrite tokenize_map. apply Forall_map, Forall_forall. intros word _. simpl.
    unfold token_of, embed_row.
    destruct (token_mapping !! word) as [token|] eqn:E; [|simpl; eauto].
    destruct (Z.eqb token (-1)) eqn:Eq; [eauto|].
    destruct (Hvocab word token E) as [-> | Hrange]; [discriminate|].
    destruct (getitem_in_range embeddings token Hwf Hrange) as (row & Eget & _). eauto. }
  destruct (embed_loop_returns embeddings _ 0
              (np_zeros (length (tokenize sentence token_mapping)) (shape1 embeddings)) Hall)
    as [out E].
  exists out. split; [exact E|].
  destruct (embed_shape _ _ _ E) as (H0 & H1 & _).
  rewrite H0, tokenize_map, length_map, split_space_lower, length_map. auto.
Qed.

End EmbedMore.

(** An instance: a known and an unknown token over one row of two columns. *)
Lemma embed_returns_wf_witness :
  shape0 (NDArray 2 2 [[1; 2]%float; [0; 0]%float]) = length [0; -1]%Z
  /\ shape1 (NDArray 2 2 [[1; 2]%float; [0; 0]%float]) = shape1 (NDArray 1 2 [[1; 2]%float])
  /\ wf_ndarray (NDArray 2 2 [[1; 2]%float; [0; 0]%float]).
Proof.
  apply (@embed_returns_wf float float64 [0; -1]%Z (NDArray 1 2 [[1; 2]%float])).
  - split; simpl; repeat constructor.
  - vm_compute. reflexivity.
Defined.

(** An instance: token 1 over two rows. *)
Lemma embed_in_vocabulary_witness :
  exists row,
    data (NDArray 2 2 [[1; 2]%float; [3; 4]%float]) !! Z.to_nat 1 = Some row
    /\ data (NDArray 2 2 [[0; 0]%float; [3; 4]%float]) !! 1 = Some row.
Proof.
  apply (@embed_in_vocabulary float float64 [-1; 1]%Z
           (NDArray 2 2 [[1; 2]%float; [3; 4]%float])
           (NDArray 2 2 [[0; 0]%float; [3; 4]%float]) 1 1%Z).
  - split; simpl; repeat constructor.
  - vm_compute. reflexivity.
  - reflexivity.
  - simpl. lia.
Defined.

(** An instance: two unknown tokens. *)
Lemma embed_all_unknown_witness :
  @embed float float64 [-1; -1]%Z (NDArray 1 2 [[1; 2]%float])
  = Ok (@np_zeros float float64 (length [-1; -1]%Z) (shape1 (NDArray 1 2 [[1; 2]%float]))).
Proof.
  apply (@embed_all_unknown float float64). repeat constructor.
Defined.

(** An instance: the vocabulary {"hello": 0} over one row. *)
Lemma embed_tokenize_returns_witness :
  exists out,
    @embed float float64 (tokenize "hello world" {[ "hello"%string := 0%Z ]})
      (NDArray 1 2 [[1; 2]%float]) = Ok out
    /\ shape0 out = length (split_space "hello world")
    /\ shape1 out = shape1 (NDArray 1 2 [[1; 2]%float]).
Proof.
  apply (@embed_tokenize_returns float float64).
  - split; simpl; repeat constructor.
  - intros word token Hlook. apply lookup_singleton_Some in Hlook.
    destruct Hlook as [_ <-]. right. simpl. lia.
Defined.

(* ===================================================================== *)
(** ** More on softmax *)
(* ===================================================================== *)

Section SoftmaxMore.
Context {T : Type} `{Scalar T}.

(** X10: on a rectangular array, [softmax] returns for the axes -2, -1, 0
    and 1, an array of the shape of its argument (also when that has no row
    or no column), and raises the axis error for every other axis. *)
Theorem softmax_returns (x : ndarray T) (axis : Z) :
  wf_ndarray x ->
  if (Z.leb (-2) axis && Z.ltb axis 2)%bool
  then exists w, softmax x axis = Ok w
                 /\ shape0 w = shape0 x /\ shape1 w = shape1 x /\ wf_ndarray w
  else softmax x axis = Raise AxisError.
Proof.
  intros Hwf.
  destruct (Z.leb (-2) axis && Z.ltb axis 2)%bool eqn:Hrange.
  - assert (Hax : exists ax, normalize_axis axis = Ok ax).
    { unfold normalize_axis. rewrite Hrange. eauto. }
    destruct Hax as [ax Hax]. rewrite (softmax_tabulate x axis ax Hwf Hax).
    eexists. split; [reflexivity|]. repeat split; apply tabulate_wf.
  - unfold softmax, np_sum, normalize_axis. now rewrite Hrange.
Qed.

Lemma transpose_tabulate (r c : nat) (f : nat -> nat -> T) :
  transpose (tabulate r c f) = tabulate c r (fun j i => f i j).
Proof.
  unfold transpose. cbn [shape0 shape1 tabulate]. unfold tabulate at 2. f_equal.
  apply map_ext_in. intros j Hj. apply in_seq in Hj.
  apply column_tabulate. lia.
Qed.

Lemma column_table (x : ndarray T) (j : nat) :
  wf_ndarray x -> column x j = map (fun i => get x i j) (seq 0 (shape0 x)).
Proof.
  intros [Hlen _]. unfold column, get. symmetry.
  exact (map_nth_seq (fun row => nth j row szero) (data x) [] (shape0 x) Hlen).
Qed.

Lemma transpose_table (x : ndarray T) :
  wf_ndarray x -> transpose x = tabulate (shape1 x) (shape0 x) (fun j i => get x i j).
Proof.
  intros Hwf. unfold transpose, tabulate. f_equal.
  apply map_ext. intros j. now apply column_table.
Qed.

(** X11: [softmax] along axis 0 is [softmax] along axis 1 of the transposed
    array, transposed back. *)
Theorem softmax_axis0_transpose (x : ndarray T) :
  wf_ndarray x ->
  softmax x 0 = (w <- softmax (transpose x) 1 ;; Ok (transpose w)).
Proof.
  intros Hwf. rewrite (transpose_table x Hwf).
  rewrite (softmax_tabulate _ 1 1 (tabulate_wf _ _ _) eq_refl). cbn [bind].
  rewrite transpose_tabulate, (softmax_tabulate x 0 0 Hwf eq_refl).
  f_equal. apply tabulate_ext. intros i j Hi Hj. cbn [shape0 shape1 tabulate slice].
  rewrite get_tabulate, row_tabulate by assumption.
  now rewrite (column_table x j Hwf).
Qed.

End SoftmaxMore.

(** An instance: a 2x2 array along its rows. *)
Lemma softmax_returns_witness :
  exists w, @softmax float float64 (NDArray 2 2 [[1; 0]%float; [0; 1]%float]) 1 = Ok w
            /\ shape0 w = 2 /\ shape1 w = 2 /\ wf_ndarray w.
Proof.
  apply (@softmax_returns float float64 (NDArray 2 2 [[1; 0]%float; [0; 1]%float]) 1).
  split; simpl; repeat constructor.
Defined.

(** An instance: an array of two rows and three columns. *)
Lemma softmax_axis0_transpose_witness :
  @softmax float float64 (NDArray 2 3 [[1; 0; 2]%float; [0; 1; 3]%float]) 0
  = (w <- @softmax float float64
            (@transpose float float64 (NDArray 2 3 [[1; 0; 2]%float; [0; 1; 3]%float])) 1 ;;
     Ok (@transpose float float64 w)).
Proof.
  apply (@softmax_axis0_transpose float float64). split; simpl; repeat constructor.
Defined.

(* ===================================================================== *)
(** ** More on the weight calculator, for any arithmetic *)
(* ===================================================================== *)

Section WeightsMore.
Context {T : Type} `{Scalar T}.

(** X14: what each outcome of [calculate_weights] on rectangular arrays
    means.  The shape error is raised exactly when the column counts differ;
    otherwise [IndexError] exactly when there is no query; otherwise the
    result is the assertion's error or a rectangular array of one row per
    query and one column per key.  The axis error never comes out. *)
Theorem calculate_weights_outcomes (queries keys : ndarray T) :
  wf_ndarray queries -> wf_ndarray keys ->
  match calculate_weights queries keys with
  | Ok w => shape1 queries = shape1 keys /\ 0 < shape0 queries
            /\ shape0 w = shape0 queries /\ shape1 w = shape0 keys /\ wf_ndarray w
  | Raise ValueError => shape1 queries <> shape1 keys
  | Raise IndexError => shape1 queries = shape1 keys /\ shape0 queries = 0
  | Raise AssertionError => shape1 queries = shape1 keys /\ 0 < shape0 queries
  | Raise AxisError => False
  end.
Proof.
  intros Hq Hk.
  destruct (Nat.eq_dec (shape1 queries) (shape1 keys)) as [Hd|Hd].
  - destruct (calculate_weights queries keys) as [w|e] eqn:E.
    + destruct (calculate_weights_wf _ _ _ Hq E) as [H0 Hwf].
      pose proof (calculate_weights_shape1 _ _ _ E) as H1.
      split; [exact Hd|]. split; [|auto].
      rewrite (calculate_weights_eq queries keys Hq Hk Hd) in E. cbv zeta in E.
      cbn [data scores] in E. rewrite map_map in E.
      destruct Hq as [Hlen _]. destruct (data queries); [discriminate | simpl in Hlen; lia].
    + rewrite (calculate_weights_eq queries keys Hq Hk Hd) in E. cbv zeta in E.
      cbn [data scores] in E. rewrite map_map in E.
      destruct Hq as [Hlen _].
      destruct (data queries) as [|q0 qs]; simpl in E, Hlen.
      * injection E as <-. split; [exact Hd | lia].
      * destruct (seq_one _); [discriminate|]. injection E as <-. split; [exact Hd | lia].
  - unfold calculate_weights, np_dot. cbn [transpose shape0].
    now destruct (Nat.eqb_spec (shape1 queries) (shape1 keys)).
Qed.

(** X15: with at least one query and no key, [calculate_weights] raises the
    assertion's error instead of returning an array without columns: the
    first row is empty and sums to zero (in any arithmetic where [0 == 1] is
    false). *)
Theorem calculate_weights_no_key (queries keys : ndarray T) :
  seq_one szero = false ->
  wf_ndarray queries -> wf_ndarray keys -> shape1 queries = shape1 keys ->
  0 < shape0 queries -> shape0 keys = 0 ->
  calculate_weights queries keys = Raise AssertionError.
Proof.
  intros Hzero Hq Hk Hd Hq1 Hk0.
  rewrite (calculate_weights_eq queries keys Hq Hk Hd). cbv zeta. cbn [data scores].
  assert (Hkeys : data keys = []).
  { destruct Hk as [Hlen _]. destruct (data keys); [reflexivity | simpl in Hlen; lia]. }
  rewrite Hkeys. pose proof (wf_nonempty queries Hq Hq1) as Hne.
  destruct (data queries) as [|q0 qs]; [congruence|]. cbn [map softmax_row].
  unfold vsum. cbn [fold_left]. now rewrite Hzero.
Qed.

End WeightsMore.

(** An instance: no query. *)
Lemma calculate_weights_outcomes_witness :
  shape1 (NDArray 0 2 ([] : list (list float))) = shape1 (NDArray 1 2 [[1; 2]%float])
  /\ shape0 (NDArray 0 2 ([] : list (list float))) = 0.
Proof.
  exact (@calculate_weights_outcomes float float64 (NDArray 0 2 []) (NDArray 1 2 [[1; 2]%float])
           ltac:(split; simpl; repeat constructor) ltac:(split; simpl; repeat constructor)).
Defined.

(** An instance: one query and no key, in binary64. *)
Lemma calculate_weights_no_key_witness :
  @calculate_weights float float64 (NDArray 1 2 [[1; 2]%float]) (NDArray 0 2 [])
  = Raise AssertionError.
Proof.
  apply (@calculate_weights_no_key float float64);
    try (split; simpl; repeat constructor); try reflexivity. simpl. lia.
Defined.

(* ===================================================================== *)
(** ** A single key, in binary64 *)
(* ===================================================================== *)

Section SingleKey.

(** The score of a query against a key, as [calculate_weights] computes it
    in binary64. *)
Definition pair_score (q k : list float) : float :=
  (@vdot float float64 q k / PrimFloat.sqrt (@sof_nat float float64 (length k)))%float.

(** X20: against a single key every weight is exactly 1.0 in binary64:
    for queries of at least one row whose scores all have a finite nonzero
    exponential, [calculate_weights] returns the column of ones, whatever
    implementation of [exp] is used. *)
Theorem calculate_weights_single_key (fexp : float -> float) (queries : ndarray float)
    (key : list float) :
  wf_ndarray queries -> shape1 queries = length key -> 0 < shape0 queries ->
  Forall (fun q => finite_nonzero (fexp (pair_score q key)) = true) (data queries) ->
  @calculate_weights float (float_scalar fexp) queries (NDArray 1 (length key) [key])
  = Ok (NDArray (shape0 queries) 1 (map (fun _ => [1%float]) (data queries))).
Proof.
  intros Hq Hd Hq1 Hfin.
  assert (Hk : wf_ndarray (NDArray 1 (length key) [key])) by (split; simpl; repeat constructor).
  rewrite (@calculate_weights_eq float (float_scalar fexp) _ _ Hq Hk Hd).
  cbv zeta. cbn [data scores shape0 shape1]. rewrite map_map.
  assert (E : map (fun q => @softmax_row float (float_scalar fexp)
                              (map (fun k => @sdiv float (float_scalar fexp)
                                               (@vdot float (float_scalar fexp) q k)
                                               (@ssqrt float (float_scalar fexp)
                                                  (@sof_nat float (float_scalar fexp)
                                                     (length key))))
                                   [key]))
                  (data queries)
              = map (fun _ => [1%float]) (data queries)).
  { apply map_ext_in. intros q Hin.
    rewrite Forall_forall in Hfin. specialize (Hfin q (proj2 (list_elem_of_In _ _) Hin)).
    cbn [map softmax_row]. unfold vsum.
    change (@sdiv float (float_scalar fexp)
              (@vdot float (float_scalar fexp) q key)
              (@ssqrt float (float_scalar fexp)
                 (@sof_nat float (float_scalar fexp) (length key))))
      with (pair_score q key).
    cbn [fold_left sadd sdiv sexp szero float_scalar].
    now rewrite (float_zero_add _ Hfin), (float_div_self _ Hfin). }
  rewrite E. pose proof (wf_nonempty queries Hq Hq1) as Hne.
  destruct (data queries) as [|q0 qs]; [congruence|]. reflexivity.
Qed.

(** An instance: two queries against the key [1.0, 2.0]. *)
Lemma calculate_weights_single_key_witness :
  @calculate_weights float float64
     (NDArray 2 2 [[1; 2]%float; [0; 3]%float]) (NDArray 1 2 [[1; 2]%float])
  = Ok (NDArray 2 1 [[1%float]; [1%float]]).
Proof.
  apply (calculate_weights_single_key libm_exp
           (NDArray 2 2 [[1; 2]%float; [0; 3]%float]) [1; 2]%float).
  - split; simpl; repeat constructor.
  - reflexivity.
  - simpl. lia.
  - simpl. repeat constructor; vm_compute; reflexivity.
Defined.

End SingleKey.

(* ===================================================================== *)
(** ** The cells: from sentences to the alignment and the attention *)
(* ===================================================================== *)

Section CellFacts.
Context {T : Type} `{Scalar T}.

Lemma embed_output_wf (tokens : list Z) (embeddings out : ndarray T) :
  wf_ndarray embeddings -> embed tokens embeddings = Ok out -> wf_ndarray out.
Proof.
  intros Hwf E. rewrite embed_traverse in E.
  apply bind_Ok in E. destruct E as (rows & Erows & E). apply Ok_inj in E. subst out.
  apply traverse_Forall2 in Erows. split; simpl.
  - symmetry. eapply Forall2_length, Erows.
  - induction Erows as [|token row tokens' rows' Hrow _ IH]; constructor; [|exact IH].
    eapply embed_row_length; eassumption.
Qed.

Lemma tokenize_split_length (sentence : string) (token_mapping : gmap string Z) :
  length (tokenize sentence token_mapping) = length (split_space sentence).
Proof. now rewrite tokenize_map, length_map, split_space_lower, length_map. Qed.

(** X21: the alignment the cell computes has one row per word of the French
    sentence and one column per word of the English sentence, so the labels
    handed to the plot, [sentence.split(" ")] of the sentences as written,
    are as many as the ticks of their axes. *)
Theorem alignment_shape (sentence_en sentence_fr : string) (en_words fr_words : gmap string Z)
    (en_embeddings fr_embeddings a : ndarray T) :
  wf_ndarray en_embeddings -> wf_ndarray fr_embeddings ->
  alignment sentence_en en_words en_embeddings sentence_fr fr_words fr_embeddings = Ok a ->
  wf_ndarray a
  /\ length (xticklabels sentence_en) = length (xticks a)
  /\ length (yticklabels sentence_fr) = length (yticks a).
Proof.
  intros Hen Hfr E. unfold alignment in E. cbv zeta in E.
  apply bind_Ok in E. destruct E as (embedded_en & Een & E).
  apply bind_Ok in E. destruct E as (embedded_fr & Efr & E).
  pose proof (embed_output_wf _ _ _ Hfr Efr) as Hwfr.
  destruct (calculate_weights_wf _ _ _ Hwfr E) as [H0 Hwf].
  pose proof (calculate_weights_shape1 _ _ _ E) as H1.
  destruct (embed_shape _ _ _ Een) as (Hen0 & _ & _).
  destruct (embed_shape _ _ _ Efr) as (Hfr0 & _ & _).
  unfold xticklabels, xticks, yticklabels, yticks. rewrite !length_seq.
  rewrite H0, H1, Hen0, Hfr0, !tokenize_split_length. auto.
Qed.

(** X22: the cell that applies the attention uses the embedded English
    sentence as keys and as values, so the product with the values never
    raises: the cell fails exactly as the alignment cell fails, and what it
    returns has one row per word of the French sentence and the columns of
    the English embedding matrix. *)
Theorem attention_qkv_result_shape (sentence_en sentence_fr : string)
    (en_words fr_words : gmap string Z) (en_embeddings fr_embeddings : ndarray T) :
  wf_ndarray en_embeddings -> wf_ndarray fr_embeddings ->
  (forall e,
     attention_qkv_result sentence_en en_words en_embeddings sentence_fr fr_words fr_embeddings
     = Raise e
     <-> alignment sentence_en en_words en_embeddings sentence_fr fr_words fr_embeddings
         = Raise e)
  /\ (forall out,
        attention_qkv_result sentence_en en_words en_embeddings sentence_fr fr_words
          fr_embeddings = Ok out ->
        shape0 out = length (split_space sentence_fr)
        /\ shape1 out = shape1 en_embeddings).
Proof.
  intros Hen Hfr. unfold attention_qkv_result, alignment. cbv zeta.
  destruct (embed (tokenize sentence_en en_words) en_embeddings) as [embedded_en|e1] eqn:Een;
    cbn [bind]; [|split; [tauto | discriminate]].
  destruct (embed (tokenize sentence_fr fr_words) fr_embeddings) as [embedded_fr|e2] eqn:Efr;
    cbn [bind]; [|split; [tauto | discriminate]].
  unfold attention_qkv.
  destruct (calculate_weights embedded_fr embedded_en) as [w|e3] eqn:Ew; cbn [bind].
  - unfold np_dot. rewrite (calculate_weights_shape1 _ _ _ Ew), Nat.eqb_refl.
    split; [intros e; split; discriminate|].
    intros out E. apply Ok_inj in E. subst out. cbn [matmul shape0 shape1].
    pose proof (embed_output_wf _ _ _ Hfr Efr) as Hwfr.
    destruct (calculate_weights_wf _ _ _ Hwfr Ew) as [H0 _].
    destruct (embed_shape _ _ _ Een) as (_ & Hen1 & _).
    destruct (embed_shape _ _ _ Efr) as (Hfr0 & _ & _).
    now rewrite H0, Hfr0, tokenize_split_length.
  - split; [tauto | discriminate].
Qed.

End CellFacts.

(** An instance: two French words against one English word. *)
Lemma alignment_shape_witness :
  wf_ndarray (NDArray 2 1 [[1%float]; [1%float]])
  /\ length (xticklabels "Hello") = length (xticks (NDArray 2 1 [[1%float]; [1%float]]))
  /\ length (yticklabels "Bonjour monde")
     = length (yticks (NDArray 2 1 [[1%float]; [1%float]])).
Proof.
  apply (@alignment_shape float float64 "Hello" "Bonjour monde"
           {[ "hello"%string := 0%Z ]} {[ "bonjour"%string := 0%Z ]}
           (NDArray 1 2 [[1; 2]%float]) (NDArray 1 2 [[2; 1]%float])).
  - split; simpl; repeat constructor.
  - split; simpl; repeat constructor.
  - vm_compute. reflexivity.
Defined.

(** An instance: the same sentences. *)
Lemma attention_qkv_result_shape_witness :
  shape0 (NDArray 2 2 [[1; 2]%float; [1; 2]%float]) = length (split_space "Bonjour monde")
  /\ shape1 (NDArray 2 2 [[1; 2]%float; [1; 2]%float]) = shape1 (NDArray 1 2 [[1; 2]%float]).
Proof.
  apply (proj2 (@attention_qkv_result_shape float float64 "Hello" "Bonjour monde"
                  {[ "hello"%string := 0%Z ]} {[ "bonjour"%string := 0%Z ]}
                  (NDArray 1 2 [[1; 2]%float]) (NDArray 1 2 [[2; 1]%float])
                  ltac:(split; simpl; repeat constructor)
                  ltac:(split; simpl; repeat constructor))).
  vm_compute. reflexivity.
Defined.

(* ===================================================================== *)
(** ** From a word to its row *)
(* ===================================================================== *)

Section WordRows.
Context {T : Type} `{Scalar T}.

(** X23: [tokenize] followed by [embed], word by word, for a sentence of
    ASCII characters: in the embedded sentence, the position of a word absent
    from the vocabulary holds a row of zeros, and the position of a word
    whose entry is a row index between 0 and the number of rows holds that
    row of the embedding matrix.  (The words are the lower-cased pieces of
    the sentence; outside ASCII [str.lower] lowers more letters than
    [lower].) *)
Theorem embed_tokenize_word (sentence : string) (token_mapping : gmap string Z)
    (embeddings out : ndarray T) (i : nat) (word : string) :
  is_ascii sentence = true ->
  wf_ndarray embeddings ->
  embed (tokenize sentence token_mapping) embeddings = Ok out ->
  split_space (lower sentence) !! i = Some word ->
  (token_mapping !! word = None ->
     data out !! i = Some (replicate (shape1 embeddings) szero))
  /\ (forall token, token_mapping !! word = Some token ->
        (0 <= token < Z.of_nat (shape0 embeddings))%Z ->
        exists row, data embeddings !! Z.to_nat token = Some row /\ data out !! i = Some row).
Proof.
  intros _ Hwf E Hword.
  assert (Htok : tokenize sentence token_mapping !! i = Some (token_of token_mapping word)).
  { rewrite tokenize_map.
    change (map (token_of token_mapping) (split_space (lower sentence)))
      with (token_of token_mapping <$> split_space (lower sentence)).
    now rewrite list_lookup_fmap, Hword. }
  destruct (embed_lookup _ _ _ _ _ E Htok) as (row & Erow & Hrow).
  unfold token_of in Erow. split.
  - intros Hnone. rewrite Hnone in Erow. unfold embed_row in Erow.
    cbn [Z.eqb Pos.eqb] in Erow. apply Ok_inj in Erow. now subst row.
  - intros token Hsome Hrange. rewrite Hsome in Erow. unfold embed_row in Erow.
    destruct (Z.eqb_spec token (-1)); [lia|].
    destruct (getitem_in_range embeddings token Hwf ltac:(lia)) as (row' & Eget & Hlook).
    rewrite Eget in Erow. apply Ok_inj in Erow. subst row'.
    exists row. split; [|exact Hrow]. destruct (Z.ltb_spec token 0); [lia | exact Hlook].
Qed.

End WordRows.

(** An instance: the unknown word "world". *)
Lemma embed_tokenize_word_witness :
  data (NDArray 2 2 [[1; 2]%float; [0; 0]%float]) !! 1
  = Some (replicate (shape1 (NDArray 1 2 [[1; 2]%float])) 0%float).
Proof.
  apply (proj1 (@embed_tokenize_word float float64 "Hello World"
                  {[ "hello"%string := 0%Z ]} (NDArray 1 2 [[1; 2]%float])
                  (NDArray 2 2 [[1; 2]%float; [0; 0]%float]) 1 "world"
                  ltac:(vm_compute; reflexivity)
                  ltac:(split; simpl; repeat constructor)
                  ltac:(vm_compute; reflexivity) ltac:(vm_compute; reflexivity))).
  vm_compute. reflexivity.
Defined.

(* ===================================================================== *)
(** ** The assertion against the rounding of binary64 *)
(* ===================================================================== *)

Section Rounding.

(** C1: [calculate_weights] does not return the row-wise softmax of the
    scaled scores on every input, because its assertion compares the sum of
    the first row with 1 exactly.  In binary64, for a query of zeros against
    six keys every score is 0 and the softmax row is six times 1/6 rounded,
    [0x1.5555555555555p-3]: a row that sums to 1 within 1e-6.  Its sum is
    [0x1.fffffffffffffp-1], not 1.0, so the assertion raises.  (The products
    are zeros, six numbers are added from the left by numpy too, and of [exp]
    only [exp 0 = 1] is used.)  With no query the index [[0]] of the
    assertion raises [IndexError]. *)
Theorem calculate_weights_rounding_raises :
  @calculate_weights float float64 zero_query six_keys = Raise AssertionError
  /\ @softmax float float64 (@scores float float64 zero_query six_keys) 1
     = Ok (NDArray 1 6 [replicate 6 0x1.5555555555555p-3%float])
  /\ @vsum float float64 (replicate 6 0x1.5555555555555p-3%float) = 0x1.fffffffffffffp-1%float
  /\ PrimFloat.leb (abs (0x1.fffffffffffffp-1 - 1)) 0x1.0c6f7a0b5ed8dp-20 = true
  /\ @calculate_weights float float64 (NDArray 0 2 []) six_keys = Raise IndexError.
Proof. vm_compute. repeat split; reflexivity. Qed.

(** The same for any [exp] with [exp 0 = 1]. *)
Lemma calculate_weights_rounding_raises_any_exp (fexp : float -> float) :
  fexp 0%float = 1%float ->
  @calculate_weights float (float_scalar fexp) zero_query six_keys = Raise AssertionError.
Proof.
  intros H0.
  rewrite (@calculate_weights_eq float (float_scalar fexp));
    [| split; simpl; repeat constructor .. | reflexivity].
  cbv zeta. unfold zero_query, six_keys. cbn [data scores map softmax_row shape0 shape1].
  repeat match goal with
         | |- context [@sdiv float ?S (@vdot float ?S ?q ?k) ?d] =>
             replace (@sdiv float S (@vdot float S q k) d) with 0%float
               by (vm_compute; reflexivity)
         end.
  cbn [sexp float_scalar]. rewrite H0. vm_compute. reflexivity.
Qed.

End Rounding.

(* ===================================================================== *)
(** ** The product of the weights with the values *)
(* ===================================================================== *)

Section AttentionProduct.
Context {T : Type} {S : Scalar T}.




End AttentionProduct.




(** In binary64, a query of zeros against two keys: the weights are one half
    each, and the output is the mean of the two values. *)
Example attention_qkv_two_keys_binary64 :
  @attention_qkv float float64 zero_query
     (NDArray 2 2 [[1; 2]; [3; 4]]%float) (NDArray 2 3 [[5; 6; 7]; [8; 9; 10]]%float)
  = Ok (NDArray 1 3 [[6.5; 7.5; 8.5]%float]).
Proof. vm_compute. reflexivity. Qed.

(* ===================================================================== *)
(** ** Queries of zeros in binary64 *)
(* ===================================================================== *)

Section ZeroQueries.
Variable fexp : float -> float.
Hypothesis fexp_0 : fexp 0%float = 1%float.





End ZeroQueries.

